(** * Sparse dictionary-learning models (models.py): a shallow embedding

    The four models of [models.py] ([SparseCoding], [SparseAutoEncoder],
    [GatedSAE], [TopKSAE]) and the [TopK] activation, over the real numbers.

    Modelling conventions.
    - A tensor entry is a real number ([R]): every statement is exact in real
      arithmetic; rounding, NaN and infinities are outside the model.  The one
      effect of float32 that a statement depends on, the underflow of
      [torch.exp] to exactly 0, is kept by [torch_exp32].
    - A 2-D tensor is a [tensor]: its number of columns and its rows.  The
      column count is kept apart from the rows so that a tensor with no rows
      still has a last dimension, as in torch.  A 1-D parameter (a bias) is a
      [list R].
    - An operation that raises in torch (shape mismatch, [k] out of range, a
      missing gradient) returns [None].
    - The dictionary [D_] lives in a store of tensors: [nn.Parameter(data=D)]
      shares the storage of the tensor [D] it is given, and
      [self.D_.data /= ...] writes into that storage. *)

From Stdlib Require Import Reals Lra Lia ZArith List Bool Arith.
From Stdlib Require Import Permutation Sorted.
Import ListNotations.
Open Scope R_scope.

(** ** Errors: the option monad *)

Definition obind {A B : Type} (o : option A) (f : A -> option B) : option B :=
  match o with
  | Some a => f a
  | None => None
  end.

Notation "x <- e ;; k" := (obind e (fun x => k))
  (at level 61, e at next level, right associativity).
Notation "' p <- e ;; k" := (obind e (fun p => k))
  (at level 61, p pattern, e at next level, right associativity).

Fixpoint mapM {A B : Type} (f : A -> option B) (l : list A) : option (list B) :=
  match l with
  | [] => Some []
  | a :: l' => b <- f a ;; bs <- mapM f l' ;; Some (b :: bs)
  end.

(** ** Tensors *)

Record tensor : Type := mkT { ncols : nat; rows : list (list R) }.

Definition nrows (t : tensor) : nat := length (rows t).

(** Every row has the length the tensor announces. *)
Definition wf (t : tensor) : Prop :=
  Forall (fun r => length r = ncols t) (rows t).

(** A 1-D tensor of shape (n) seen as a tensor of shape (1, n), which is how
    broadcasting aligns it with a 2-D tensor. *)
Definition of_vec (v : list R) : tensor := mkT (length v) [v].

Definition tmap (f : R -> R) (t : tensor) : tensor :=
  mkT (ncols t) (map (map f) (rows t)).

Definition get (t : tensor) (i j : nat) : R := nth j (nth i (rows t) []) 0.

Definition map2 {A B C : Type} (f : A -> B -> C) (u : list A) (v : list B) : list C :=
  map (fun p => f (fst p) (snd p)) (combine u v).

(** *** Broadcasting of element-wise binary operations *)

(** The size of a broadcast dimension; [None] when the sizes are
    incompatible. *)
Definition bdim (a b : nat) : option nat :=
  if (a =? b)%nat then Some a
  else if (a =? 1)%nat then Some b
  else if (b =? 1)%nat then Some a
  else None.

(** [expand d n l]: [l] itself when it has size [n], its only element
    repeated [n] times otherwise (only used after [bdim] succeeded). *)
Definition expand {A : Type} (d : A) (n : nat) (l : list A) : list A :=
  if (length l =? n)%nat then l else repeat (hd d l) n.

Definition bop (f : R -> R -> R) (a b : tensor) : option tensor :=
  c <- bdim (ncols a) (ncols b) ;;
  r <- bdim (nrows a) (nrows b) ;;
  Some (mkT c (map2 (fun u v => map2 f (expand 0 c u) (expand 0 c v))
                    (expand [] r (rows a)) (expand [] r (rows b)))).

Definition sum (l : list R) : R := fold_right Rplus 0 l.

Definition dot (u v : list R) : R := sum (map2 Rmult u v).

(** [torch.sum] over all entries. *)
Definition tsum (t : tensor) : R := sum (map sum (rows t)).

(** [a @ b] for 2-D tensors: entry (i, j) is the sum over k of
    [a[i][k] * b[k][j]]; raises unless the columns of [a] are as many as the
    rows of [b]. *)
Definition matmul (a b : tensor) : option tensor :=
  if (ncols a =? nrows b)%nat
  then Some (mkT (ncols b)
               (map (fun u => map (fun j => dot u (map (fun d => nth j d 0) (rows b)))
                                  (seq 0 (ncols b)))
                    (rows a)))
  else None.

(** [torch.linalg.norm(row)]: the L2 norm of a row. *)
Definition row_norm (r : list R) : R := sqrt (sum (map (fun x => x * x) r)).

(** [D / torch.linalg.norm(D, dim=1, keepdim=True)]: the norm has shape
    (N, 1) and the division broadcasts it along each row, so the result always
    has the shape of [D]. *)
Definition normalize_rows (d : tensor) : tensor :=
  mkT (ncols d) (map (fun r => map (fun x => x / row_norm r) r) (rows d)).

Definition relu (x : R) : R := if Rlt_dec 0 x then x else 0.

(** [torch.sign]. *)
Definition sign (x : R) : R :=
  if Rlt_dec 0 x then 1 else if Rlt_dec x 0 then -1 else 0.

(** ** The store of dictionary tensors *)

Definition loc := nat.

Record heap : Type := mkHeap { cells : loc -> tensor; next : loc }.

Definition read (h : heap) (l : loc) : tensor := cells h l.

Definition write (h : heap) (l : loc) (t : tensor) : heap :=
  mkHeap (fun l' => if (l' =? l)%nat then t else cells h l') (next h).

(** A fresh tensor, as made by [torch.randn] or [torch.empty]. *)
Definition alloc (h : heap) (t : tensor) : loc * heap :=
  (next h, mkHeap (fun l' => if (l' =? next h)%nat then t else cells h l') (S (next h))).

(** [p.data /= torch.linalg.norm(p, dim=1, keepdim=True)], in place. *)
Definition normalize_in_place (h : heap) (l : loc) : heap :=
  write h l (normalize_rows (read h l)).

(** ** Primitives of the tensor library used by [TopK] *)

Definition enumerate (x : list R) : list (nat * R) := combine (seq 0 (length x)) x.

(** Insertion into a list sorted by decreasing value; among equal values the
    entry inserted last comes first. *)
Fixpoint insert_desc (p : nat * R) (l : list (nat * R)) : list (nat * R) :=
  match l with
  | [] => [p]
  | q :: l' => if Rlt_dec (snd p) (snd q) then q :: insert_desc p l' else p :: l
  end.

Definition sort_desc (l : list (nat * R)) : list (nat * R) :=
  fold_right insert_desc [] l.

(** The [k] largest entries of a row with their positions, largest first
    (among equal values, the lower position first). *)
Definition topk_row (k : nat) (x : list R) : list (nat * R) :=
  firstn k (sort_desc (enumerate x)).

Record topk_result : Type := mkTopk { values : tensor; indices : list (list nat) }.

(** [torch.topk(x, k=k, dim=-1)]: for each row the [k] largest values and
    their positions.  It raises ("selected index k out of range") unless
    [0 <= k <= x.size(-1)].  The order among equal values is not fixed by
    torch; this model takes the lower position first, and the theorems below
    use only what holds for any order. *)
Definition torch_topk (x : tensor) (k : Z) : option topk_result :=
  if ((0 <=? k)%Z && (k <=? Z.of_nat (ncols x))%Z)%bool
  then let top := map (topk_row (Z.to_nat k)) (rows x) in
       Some (mkTopk (mkT (Z.to_nat k) (map (map snd) top)) (map (map fst) top))
  else None.

(** [torch.zeros_like]. *)
Definition zeros_like (x : tensor) : tensor :=
  mkT (ncols x) (map (fun r => repeat 0 (length r)) (rows x)).

(** [l[i] = v]; the caller checks the range. *)
Fixpoint upd (i : nat) (v : R) (l : list R) : list R :=
  match l, i with
  | [], _ => []
  | _ :: l', O => v :: l'
  | a :: l', S i' => a :: upd i' v l'
  end.

(** One row of [scatter_]: [result[index[j]] = src[j]] for every [j], in
    order.  It raises on a position outside the row and when [src] is shorter
    than [index]. *)
Fixpoint scatter_row (result : list R) (index : list nat) (src : list R)
  : option (list R) :=
  match index, src with
  | [], _ => Some result
  | i :: index', v :: src' =>
      if (i <? length result)%nat then scatter_row (upd i v result) index' src'
      else None
  | _ :: _, [] => None
  end.

Fixpoint scatter_rows (result : list (list R)) (index : list (list nat))
  (src : list (list R)) : option (list (list R)) :=
  match index, result, src with
  | [], _, _ => Some result
  | ix :: index', r :: result', s :: src' =>
      r' <- scatter_row r ix s ;;
      rest <- scatter_rows result' index' src' ;;
      Some (r' :: rest)
  | _ :: _, _, _ => None
  end.

(** [result.scatter_(-1, index, src)]. *)
Definition scatter_ (result : tensor) (index : list (list nat)) (src : tensor)
  : option tensor :=
  rs <- scatter_rows (rows result) index (rows src) ;;
  Some (mkT (ncols result) rs).

(** ** Losses *)

Inductive reduction : Type := Mean | Sum.

(** [F.mse_loss(input, target, reduction)]: the two tensors are broadcast
    against each other first. *)
Definition mse_loss (input target : tensor) (red : reduction) : option R :=
  e <- bop Rminus input target ;;
  let sq := tmap (fun d => d ^ 2) e in
  Some match red with
       | Sum => tsum sq
       | Mean => tsum sq / INR (nrows sq * ncols sq)
       end.

(** [nn.Linear] without its bias: [X @ W^T] for a weight of shape (N, M);
    raises unless the rows of [X] have [M] entries. *)
Definition linear_nobias (w x : tensor) : option tensor :=
  if (ncols x =? ncols w)%nat
  then Some (mkT (nrows w) (map (fun u => map (fun wr => dot u wr) (rows w)) (rows x)))
  else None.

(** [nn.Linear]: [X @ W^T + b]. *)
Definition linear (w : tensor) (b : list R) (x : tensor) : option tensor :=
  y <- linear_nobias w x ;;
  bop Rplus y (of_vec b).

(** * The models *)

Module TopK.

(** [postact_fn] is an element-wise module (the default is [nn.ReLU()]). *)
Record t : Type := mk { k : Z; postact_fn : R -> R }.

Definition forward (self : t) (x : tensor) : option tensor :=
  topk <- torch_topk x (k self) ;;
  let values := tmap (postact_fn self) (values topk) in
  let result := zeros_like x in
  scatter_ result (indices topk) values.

End TopK.

Module SparseCoding.

Record t : Type := mk { learn_D : bool; log_S_ : tensor; D_ : loc }.

(** [__init__(S, D, learn_D, seed)]: [randn] is the draw of
    [torch.randn(D.shape)] that the seed fixes. *)
Definition init (h : heap) (S : tensor) (D : loc) (learn_D : bool) (randn : tensor)
  : t * heap :=
  let N := nrows (read h D) in
  let log_S_ := mkT N (repeat (repeat (-10) N) (nrows S)) in
  if learn_D
  then let (l, h') := alloc h randn in (mk learn_D log_S_ l, h')
  else (mk learn_D log_S_ D, h).

(** [torch.exp] is the real exponential here; [SparseCoding_forward_with]
    further down takes the exponential as a parameter. *)
Definition forward (self : t) (h : heap) (X : option tensor)
  : heap * option (tensor * tensor) :=
  let h := if learn_D self then normalize_in_place h (D_ self) else h in
  let S_ := tmap exp (log_S_ self) in
  (h, X_ <- matmul S_ (read h (D_ self)) ;; Some (S_, X_)).

Definition loss_forward (self : t) (h : heap) (X : tensor) (weight : R)
  : heap * option (tensor * tensor * R) :=
  let (h, r) := forward self h (Some X) in
  (h, ' (S_, X_) <- r ;;
      e <- bop Rminus X X_ ;;
      Some (S_, X_, tsum (tmap (fun d => d ^ 2) e) + weight * tsum (tmap Rabs S_))).

End SparseCoding.

Module SparseAutoEncoder.

(** [encoder] is [nn.Sequential(nn.Linear(M, N), nn.ReLU())] when [relu],
    [nn.Sequential(nn.Linear(M, N), Exp())] otherwise. *)
Record t : Type := mk {
  learn_D : bool;
  relu_ : bool;
  encoder_weight : tensor;
  encoder_bias : list R;
  D_ : loc }.

(** [w], [b] and [randn] are the draws the seed fixes for the linear layer
    and for [torch.randn(D.shape)]. *)
Definition init (h : heap) (D : loc) (learn_D : bool) (relu : bool)
  (w : tensor) (b : list R) (randn : tensor) : t * heap :=
  if learn_D
  then let (l, h') := alloc h randn in (mk learn_D relu w b l, h')
  else (mk learn_D relu w b D, h).

(** The [Exp] activation is the real exponential here;
    [SparseAutoEncoder_forward_with] further down takes it as a parameter. *)
Definition encoder (self : t) (X : tensor) : option tensor :=
  y <- linear (encoder_weight self) (encoder_bias self) X ;;
  Some (tmap (if relu_ self then relu else exp) y).

Definition forward (self : t) (h : heap) (X : tensor)
  : heap * option (tensor * tensor) :=
  let h := if learn_D self then normalize_in_place h (D_ self) else h in
  (h, S_ <- encoder self X ;;
      X_ <- matmul S_ (read h (D_ self)) ;;
      Some (S_, X_)).

Definition loss_forward (self : t) (h : heap) (X : tensor) (weight : R)
  : heap * option (tensor * tensor * R) :=
  let (h, r) := forward self h X in
  (h, ' (S_, X_) <- r ;;
      e <- bop Rminus X X_ ;;
      Some (S_, X_, tsum (tmap (fun d => d ^ 2) e) + weight * tsum (tmap Rabs S_))).

End SparseAutoEncoder.

Module GatedSAE.

(** [D_grad] is [self.D_.grad]: [None] until a backward pass stores one. *)
Record t : Type := mk {
  learn_D : bool;
  D_ : loc;
  D_grad : option tensor;
  W_gate : tensor;
  b_dec : list R;
  b_enc_gate : list R;
  b_dec_gate : list R;
  r_mag : list R;
  b_mag : list R;
  b_gate : list R;
  d_hidden : nat }.

(** [kaiming_D] and [kaiming_W] are the draws of the two
    [kaiming_uniform_] calls.  The renormalisation of line 117 is outside
    the [if]: it runs for a supplied dictionary too. *)
Definition init (h : heap) (D : loc) (learn_D : bool) (kaiming_D kaiming_W : tensor)
  : t * heap :=
  let N := nrows (read h D) in
  let M := ncols (read h D) in
  let (l, h) := if learn_D then alloc h kaiming_D else (D, h) in
  let h := normalize_in_place h l in
  (mk learn_D l None kaiming_W (repeat 0 M) (repeat 0 N) (repeat 0 M)
      (repeat 0 N) (repeat 0 N) (repeat 0 N) N, h).

(** [(torch.sign(pre_gate_hidden) + 1) / 2]. *)
Definition gate (pre_gate_hidden : tensor) : tensor :=
  tmap (fun x => (sign x + 1) / 2) pre_gate_hidden.

(** The code [S_] from the shared pre-activation. *)
Definition code (self : t) (preactivations_hidden : tensor)
  : option (tensor * tensor) :=
  scaled <- bop Rmult preactivations_hidden (of_vec (map exp (r_mag self))) ;;
  pre_mag_hidden <- bop Rplus scaled (of_vec (b_mag self)) ;;
  let post_mag_hidden := tmap relu pre_mag_hidden in
  pre_gate_hidden <- bop Rplus preactivations_hidden (of_vec (b_gate self)) ;;
  let post_gate_hidden := gate pre_gate_hidden in
  S_ <- bop Rmult post_mag_hidden post_gate_hidden ;;
  Some (S_, pre_gate_hidden).

Definition forward (self : t) (h : heap) (X : tensor)
  : heap * option (tensor * tensor * tensor) :=
  let h := if learn_D self then normalize_in_place h (D_ self) else h in
  (h, centered <- bop Rminus X (of_vec (b_dec self)) ;;
      preactivations_hidden <- matmul centered (W_gate self) ;;
      ' (S_, pre_gate_hidden) <- code self preactivations_hidden ;;
      rec <- matmul S_ (read h (D_ self)) ;;
      X_ <- bop Rplus rec (of_vec (b_dec self)) ;;
      Some (S_, X_, pre_gate_hidden)).

Definition loss_forward (self : t) (h : heap) (X : tensor) (l1_weight : R)
  : heap * option (tensor * tensor * R) :=
  let (h, r) := forward self h X in
  (h, ' (S_, X_, pre_gate_hidden) <- r ;;
      mse <- mse_loss X_ X Mean ;;
      let gate_magnitude := tmap relu pre_gate_hidden in
      let gated_sae_loss := mse + l1_weight * tsum gate_magnitude in
      rec <- matmul gate_magnitude (read h (D_ self)) ;;
      gate_reconstruction <- bop Rplus rec (of_vec (b_dec self)) ;;
      auxiliary_loss <- mse_loss gate_reconstruction X Mean ;;
      Some (S_, X_, gated_sae_loss + auxiliary_loss)).

(** [(A).sum(-1, keepdim=True)]: shape (N, 1). *)
Definition sum_last_keepdim (a : tensor) : tensor :=
  mkT 1 (map (fun r => [sum r]) (rows a)).

(** [g -= p], in place: raises unless the broadcast result has the shape
    of [g]. *)
Definition isub (g p : tensor) : option tensor :=
  r <- bop Rminus g p ;;
  if ((ncols r =? ncols g)%nat && (nrows r =? nrows g)%nat)%bool
  then Some r else None.

(** Only [self.D_.grad] is assigned: [D_normed] is a local tensor and the
    store is returned as it was received. *)
Definition make_decoder_weights_and_grad_unit_norm (self : t) (h : heap)
  : option (t * heap) :=
  let D_normed := normalize_rows (read h (D_ self)) in
  grad <- D_grad self ;;
  prod <- bop Rmult grad D_normed ;;
  D_grad_proj <- bop Rmult (sum_last_keepdim prod) D_normed ;;
  grad' <- isub grad D_grad_proj ;;
  Some (mk (learn_D self) (D_ self) (Some grad') (W_gate self) (b_dec self)
           (b_enc_gate self) (b_dec_gate self) (r_mag self) (b_mag self)
           (b_gate self) (d_hidden self), h).

End GatedSAE.

Module TopKSAE.

Record t : Type := mk {
  learn_D : bool;
  encoder_weight : tensor;
  latent_bias : list R;
  activation : TopK.t;
  D_ : loc;
  pre_bias : list R }.

(** [w] and [randn] are the draws the seed fixes for the linear layer and
    for [torch.randn(D.shape)]; [k] is not compared with [N]. *)
Definition init (h : heap) (D : loc) (learn_D : bool) (k : Z) (postact_fn : R -> R)
  (w : tensor) (randn : tensor) : t * heap :=
  let N := nrows (read h D) in
  let M := ncols (read h D) in
  let activation := TopK.mk k postact_fn in
  if learn_D
  then let (l, h') := alloc h randn in
       (mk learn_D w (repeat 0 N) activation l (repeat 0 M), h')
  else (mk learn_D w (repeat 0 N) activation D (repeat 0 M), h).

Definition k (self : t) : Z := TopK.k (activation self).

(** Lines 208-209: the pre-activation handed to the top-k activation. *)
Definition pre_act (self : t) (X : tensor) : option tensor :=
  X_centered <- bop Rminus X (of_vec (pre_bias self)) ;;
  y <- linear_nobias (encoder_weight self) X_centered ;;
  bop Rplus y (of_vec (latent_bias self)).

Definition forward (self : t) (h : heap) (X : tensor)
  : heap * option (tensor * tensor) :=
  let h := if learn_D self then normalize_in_place h (D_ self) else h in
  (h, S_pre_act <- pre_act self X ;;
      S_ <- TopK.forward (activation self) S_pre_act ;;
      rec <- matmul S_ (read h (D_ self)) ;;
      X_ <- bop Rplus rec (of_vec (pre_bias self)) ;;
      Some (S_, X_)).

Definition loss_forward (self : t) (h : heap) (X : tensor) (weight : R)
  : heap * option (tensor * tensor * R) :=
  let (h, r) := forward self h X in
  (h, ' (S_, X_) <- r ;;
      loss <- mse_loss X_ X Sum ;;
      Some (S_, X_, loss)).

End TopKSAE.

(** ** Sequences of calls on one model *)

Inductive call : Type :=
  | Forward (X : tensor)
  | LossForward (X : tensor) (weight : R).

(** The store after a sequence of calls, given the model's two methods; a
    call that raises still leaves behind what it wrote before raising. *)
Definition run_calls {M A B : Type}
  (fwd : M -> heap -> tensor -> heap * A)
  (loss : M -> heap -> tensor -> R -> heap * B)
  (self : M) (cs : list call) (h : heap) : heap :=
  fold_left (fun h c => match c with
                        | Forward X => fst (fwd self h X)
                        | LossForward X w => fst (loss self h X w)
                        end) cs h.

(** The ReLU activation, the default [postact_fn]. *)
Definition default_postact : R -> R := relu.

(** * Vocabulary of the statements *)

(** The order of a list sorted by decreasing value. *)
Definition ge_snd (p q : nat * R) : Prop := snd q <= snd p.

(** The result row of [TopK.forward] for the row [x], its selected positions
    [sel] and the post-activation [f]. *)
Definition row_ok (f : R -> R) (k : nat) (x r : list R) (sel : list nat) : Prop :=
  length r = length x /\
  NoDup sel /\ length sel = k /\
  (forall j, In j sel -> (j < length x)%nat /\ nth j r 0 = f (nth j x 0)) /\
  (forall j, ~ In j sel -> nth j r 0 = 0) /\
  (forall j j', In j sel -> (j' < length x)%nat -> ~ In j' sel ->
                nth j' x 0 <= nth j x 0).

(** A row that is not the zero vector. *)
Definition nonzero_row (r : list R) : Prop := Exists (fun x => x <> 0) r.

(** Every row has L2 norm 1. *)
Definition unit_rows (d : tensor) : Prop := Forall (fun r => row_norm r = 1) (rows d).

(** Every entry satisfies [P]. *)
Definition entries (P : R -> Prop) (t : tensor) : Prop := Forall (Forall P) (rows t).

(** The sum over all entries of the squared difference of two tensors of one
    shape, entry by entry. *)
Definition sum_sq_err (a b : tensor) : R :=
  sum (map (fun i => sum (map (fun j => (get a i j - get b i j) ^ 2)
                              (seq 0 (ncols a))))
           (seq 0 (nrows a))).

Definition sumsq (r : list R) : R := sum (map (fun x => x * x) r).

(** One row of the gradient after [make_decoder_weights_and_grad_unit_norm]:
    the row [g] of the gradient minus its component along the normalised
    dictionary row [d / |d|]. *)
Definition proj_row (g d : list R) : list R :=
  let n := map (fun x => x / row_norm d) d in
  map2 Rminus g (map (Rmult (dot g n)) n).

(** Two tensors of one shape. *)
Definition same_shape (a b : tensor) : Prop :=
  ncols a = ncols b /\ nrows a = nrows b.

(** [SparseCoding.forward] with a tensor argument, as [loss_forward] calls
    it. *)
Definition SparseCoding_forward_on (self : SparseCoding.t) (h : heap) (X : tensor)
  : heap * option (tensor * tensor) :=
  SparseCoding.forward self h (Some X).

(** ** Concrete inputs *)

(** A 1 x 1 dictionary [[2]] at address 0, whose only row has norm 2. *)
Definition heap_two : heap := mkHeap (fun _ => mkT 1 [[2]]) 1%nat.

(** A [GatedSAE] with a learned dictionary [[2]] (as an optimiser step may
    leave it) and a stored gradient [[1]]. *)
Definition gated_two : GatedSAE.t :=
  GatedSAE.mk true 0%nat (Some (mkT 1 [[1]])) (mkT 1 [[1]]) [0] [0] [0] [0] [0] [0] 1%nat.

(** A row [1; 3; 2] and the top-2 activation with the default ReLU. *)
Definition x_132 : tensor := mkT 3 [[1; 3; 2]].

Definition top2 : TopK.t := TopK.mk 2 default_postact.

(** Models on 1 x 1 tensors with the supplied dictionary [[2]] of
    [heap_two]. *)
Definition coding_one (learn_D : bool) : SparseCoding.t :=
  SparseCoding.mk learn_D (mkT 1 [[0]]) 0%nat.

Definition autoencoder_one (learn_D : bool) : SparseAutoEncoder.t :=
  SparseAutoEncoder.mk learn_D true (mkT 1 [[1]]) [0] 0%nat.

Definition gated_one (learn_D : bool) : GatedSAE.t :=
  GatedSAE.mk learn_D 0%nat None (mkT 1 [[1]]) [0] [0] [0] [0] [0] [0] 1%nat.

Definition topksae_one (learn_D : bool) : TopKSAE.t :=
  TopKSAE.mk learn_D (mkT 1 [[1]]) [0] (TopK.mk 1 default_postact) 0%nat [0].

Definition X_three : tensor := mkT 1 [[3]].

(** ** Parameter shapes

    The shapes the constructors give the parameters, for a dictionary of [N]
    rows and [M] columns. *)

Definition SparseAutoEncoder_shaped (self : SparseAutoEncoder.t) (h : heap) (N M : nat)
  : Prop :=
  ncols (SparseAutoEncoder.encoder_weight self) = M /\
  nrows (SparseAutoEncoder.encoder_weight self) = N /\
  length (SparseAutoEncoder.encoder_bias self) = N /\
  nrows (read h (SparseAutoEncoder.D_ self)) = N.

Definition TopKSAE_shaped (self : TopKSAE.t) (h : heap) (N M : nat) : Prop :=
  length (TopKSAE.pre_bias self) = M /\
  ncols (TopKSAE.encoder_weight self) = M /\
  nrows (TopKSAE.encoder_weight self) = N /\
  length (TopKSAE.latent_bias self) = N /\
  nrows (read h (TopKSAE.D_ self)) = N /\
  ncols (read h (TopKSAE.D_ self)) = M.

Definition GatedSAE_shaped (self : GatedSAE.t) (h : heap) (N M : nat) : Prop :=
  length (GatedSAE.b_dec self) = M /\
  nrows (GatedSAE.W_gate self) = M /\
  ncols (GatedSAE.W_gate self) = N /\
  length (GatedSAE.r_mag self) = N /\
  length (GatedSAE.b_mag self) = N /\
  length (GatedSAE.b_gate self) = N /\
  nrows (read h (GatedSAE.D_ self)) = N /\
  ncols (read h (GatedSAE.D_ self)) = M.

(** An input of 2 rows and 1 column. *)
Definition X_column : tensor := mkT 1 [[3]; [4]].

(** An input of 1 row and 2 columns. *)
Definition X_wide : tensor := mkT 2 [[3; 4]].


(** A 1 x 2 dictionary [[3; 4]] at address 0, whose only row has norm 5. *)
Definition heap_wide : heap := mkHeap (fun _ => mkT 2 [[3; 4]]) 1%nat.

(** Models with [N = 1] atom over [M = 2] observed dimensions. *)
Definition topksae_wide (learn_D : bool) : TopKSAE.t :=
  TopKSAE.mk learn_D (mkT 2 [[1; 1]]) [0] (TopK.mk 1 default_postact) 0%nat [0; 0].

Definition gated_wide (learn_D : bool) : GatedSAE.t :=
  GatedSAE.mk learn_D 0%nat None (mkT 1 [[1]; [1]]) [0; 0] [0] [0; 0] [0] [0] [0] 1%nat.

(** An input of 1 row and 3 columns. *)
Definition X_three_columns : tensor := mkT 3 [[1; 2; 3]].


(** The number of non-zero entries of a row ([torch.count_nonzero]). *)
Definition count_nonzero (r : list R) : nat :=
  length (filter (fun x => if Req_dec_T x 0 then false else true) r).


(** ** [SparseCoding.infer]

    The loop of [infer] calls two things of the tensor library that are
    taken as parameters here: [loss.backward()], which gives the gradient of
    this iteration's loss with respect to [log_S_], and the Adam optimiser
    ([torch.optim.Adam([log_S_], lr)] and its [step]), which turns the
    parameter and its gradient into the next parameter.  The statements on
    [infer] hold for any such pair. *)

Section Infer.

Variable opt_state : Type.

(** [torch.optim.Adam([log_S_], lr=lr)]. *)
Variable adam_init : R -> tensor -> opt_state.

(** The gradient that [loss.backward()] leaves in [log_S_.grad], for the
    loss built from [log_S_], [D_], [X] and [l1_weight]. *)
Variable backward : tensor -> tensor -> tensor -> R -> tensor.

(** [optimizer.step()]: the optimiser's next state and the next
    [log_S_]. *)
Variable adam_step : opt_state -> tensor -> tensor -> opt_state * tensor.

(** The iterations left to run.  [last] is the local variable [S_], unbound
    before the first iteration.  The result is the final [log_S_] and what
    [return S_.detach()] gives: [None] when an iteration raised or when
    [S_] is still unbound. *)
Fixpoint infer_loop (n : nat) (D_ X : tensor) (l1_weight : R)
  (log_S_ : tensor) (opt : opt_state) (last : option tensor)
  : tensor * option tensor :=
  match n with
  | O => (log_S_, last)
  | S n' =>
      let S_ := tmap exp log_S_ in
      match (X_ <- matmul S_ D_ ;;
             mse <- mse_loss X_ X Mean ;;
             Some (mse + l1_weight * tsum (tmap Rabs S_))) with
      | None => (log_S_, None)
      | Some loss =>
          let grad := backward log_S_ D_ X l1_weight in
          let (opt', log_S_') := adam_step opt log_S_ grad in
          let S_ := tmap relu S_ in
          infer_loop n' D_ X l1_weight log_S_' opt' (Some S_)
      end
  end.

(** [infer(X, num_iterations, lr, l1_weight)]: the model with its new
    [log_S_], and the returned code.  The store is only read. *)
Definition SparseCoding_infer (self : SparseCoding.t) (h : heap) (X : tensor)
  (num_iterations : Z) (lr l1_weight : R) : SparseCoding.t * option tensor :=
  let D_ := read h (SparseCoding.D_ self) in
  let log_S_ := mkT (nrows D_) (repeat (repeat (-10) (nrows D_)) (nrows X)) in
  let optimizer := adam_init lr log_S_ in
  let (log_S_', result) :=
    infer_loop (Z.to_nat num_iterations) D_ X l1_weight log_S_ optimizer None in
  (SparseCoding.mk (SparseCoding.learn_D self) log_S_' (SparseCoding.D_ self), result).

End Infer.

(** Plain gradient descent with a zero gradient, as a stand-in optimiser for
    concrete runs of [infer]. *)
Definition no_grad (log_S_ D_ X : tensor) (l1_weight : R) : tensor :=
  tmap (fun _ => 0) log_S_.

Definition descent_init (lr : R) (p : tensor) : R := lr.

Definition descent_step (lr : R) (p g : tensor) : R * tensor :=
  (lr, match bop (fun a b => a - lr * b) p g with Some p' => p' | None => p end).


(** Two dictionaries of 2 atoms over 1 observed dimension that differ in
    their second atom only, at address 0 of two stores. *)
Definition heap_atoms (second : R) : heap := mkHeap (fun _ => mkT 1 [[2]; [second]]) 1%nat.

(** A [TopKSAE] with [N = 2], [M = 1] and [k = 1] whose encoder sends the
    input to the first atom. *)
Definition topksae_two_atoms : TopKSAE.t :=
  TopKSAE.mk false (mkT 1 [[1]; [0]]) [0; 0] (TopK.mk 1 default_postact) 0%nat [0].


(** ** The exponential in float32

    The tensors of the models are float32, and there [torch.exp] returns
    exactly [0.0] once its argument is small enough: [exp(-104)] lies below
    half the smallest positive float32.  [torch_exp32] keeps this one effect
    of the number format and is the real exponential elsewhere. *)








(** * Properties *)

(** ** Generic facts on lists and on the option monad *)

Lemma obind_some {A B : Type} (o : option A) (f : A -> option B) (b : B) :
  obind o f = Some b -> exists a, o = Some a /\ f a = Some b.
Proof.
  destruct o as [a|]; simpl; intros H; [exists a; auto | discriminate].
Qed.

Ltac inv_bind H :=
  let a := fresh "a" in
  let E := fresh "E" in
  apply obind_some in H; destruct H as [a [E H]].

Lemma map2_length {A B C : Type} (f : A -> B -> C) u v :
  length (map2 f u v) = Nat.min (length u) (length v).
Proof. unfold map2. now rewrite length_map, length_combine. Qed.




Lemma tmap_Forall (f : R -> R) (T : R -> Prop) a :
  (forall x, T (f x)) -> Forall (Forall T) (rows (tmap f a)).
Proof.
  intros Hf. unfold tmap. simpl. apply Forall_forall. intros r Hr.
  apply in_map_iff in Hr. destruct Hr as [u [<- _]].
  apply Forall_forall. intros y Hy. apply in_map_iff in Hy.
  destruct Hy as [x [<- _]]. apply Hf.
Qed.

Lemma relu_nonneg x : 0 <= relu x.
Proof. unfold relu. destruct (Rlt_dec 0 x); lra. Qed.

Lemma sign_cases x :
  (x < 0 -> sign x = -1) /\ (x = 0 -> sign x = 0) /\ (0 < x -> sign x = 1).
Proof.
  unfold sign. destruct (Rlt_dec 0 x), (Rlt_dec x 0); repeat split; intros; lra.
Qed.

(** ** The top-k selection of one row *)

Lemma insert_desc_perm p l : Permutation (insert_desc p l) (p :: l).
Proof.
  induction l as [|q l IH]; simpl; [reflexivity|].
  destruct (Rlt_dec (snd p) (snd q)); [|reflexivity].
  rewrite IH. apply perm_swap.
Qed.

Lemma sort_desc_perm l : Permutation (sort_desc l) l.
Proof.
  induction l as [|p l IH]; simpl; [reflexivity|].
  rewrite insert_desc_perm. now constructor.
Qed.

Lemma insert_desc_sorted p l :
  StronglySorted ge_snd l -> StronglySorted ge_snd (insert_desc p l).
Proof.
  induction 1 as [|q l Hs IH Hq]; simpl.
  - repeat constructor.
  - destruct (Rlt_dec (snd p) (snd q)) as [Hlt|Hge].
    + constructor; [exact IH|].
      apply (Permutation_Forall (x := p :: l)).
      * symmetry. apply insert_desc_perm.
      * constructor; [unfold ge_snd; lra | exact Hq].
    + constructor; [now constructor|].
      constructor; [unfold ge_snd; lra|].
      eapply Forall_impl; [|exact Hq]. unfold ge_snd. intros r Hr. lra.
Qed.

Lemma sort_desc_sorted l : StronglySorted ge_snd (sort_desc l).
Proof.
  induction l; simpl; [constructor | now apply insert_desc_sorted].
Qed.

Lemma sorted_app_between l1 l2 :
  StronglySorted ge_snd (l1 ++ l2) ->
  forall p q, In p l1 -> In q l2 -> snd q <= snd p.
Proof.
  induction l1 as [|a l1 IH]; simpl; intros Hs p q Hp Hq; [contradiction|].
  apply StronglySorted_inv in Hs. destruct Hs as [Hs Ha].
  destruct Hp as [<-|Hp].
  - rewrite Forall_forall in Ha. apply (Ha q). apply in_or_app. now right.
  - now apply IH.
Qed.

Lemma firstn_incl {A : Type} (n : nat) (l : list A) x : In x (firstn n l) -> In x l.
Proof.
  intros H. rewrite <- (firstn_skipn n l). apply in_or_app. now left.
Qed.

Lemma combine_seq_fst (x : list R) s : map fst (combine (seq s (length x)) x) = seq s (length x).
Proof.
  revert s. induction x as [|a x IH]; intros s; simpl; [reflexivity|].
  now rewrite IH.
Qed.

Lemma combine_seq_in (x : list R) s i v :
  In (i, v) (combine (seq s (length x)) x) <->
  (s <= i < s + length x)%nat /\ v = nth (i - s) x 0.
Proof.
  revert s. induction x as [|a x IH]; intros s; simpl.
  - split; [contradiction | lia].
  - rewrite IH. split.
    + intros [H|[H1 H2]].
      * injection H as <- <-. rewrite Nat.sub_diag. split; [lia | reflexivity].
      * split; [lia|]. replace (i - s)%nat with (S (i - S s)) by lia. exact H2.
    + intros [H1 H2]. destruct (Nat.eq_dec i s) as [->|Hne].
      * left. rewrite Nat.sub_diag in H2. now subst v.
      * right. split; [lia|]. replace (i - s)%nat with (S (i - S s)) in H2 by lia.
        exact H2.
Qed.

Lemma enumerate_in (x : list R) i v :
  In (i, v) (enumerate x) <-> (i < length x)%nat /\ v = nth i x 0.
Proof.
  unfold enumerate. rewrite combine_seq_in, Nat.sub_0_r. intuition lia.
Qed.

Lemma enumerate_length x : length (enumerate x) = length x.
Proof. unfold enumerate. rewrite length_combine, length_seq. lia. Qed.

(** What [torch.topk] promises for one row, whatever the order among equal
    values: [k] distinct positions, each with its value, and no position left
    out holds a larger value than a selected one. *)
Lemma topk_row_spec (k : nat) (x : list R) :
  (k <= length x)%nat ->
  length (topk_row k x) = k /\
  NoDup (map fst (topk_row k x)) /\
  (forall p, In p (topk_row k x) -> (fst p < length x)%nat /\ snd p = nth (fst p) x 0) /\
  (forall p j, In p (topk_row k x) -> (j < length x)%nat ->
               ~ In j (map fst (topk_row k x)) -> nth j x 0 <= snd p).
Proof.
  intros Hk. unfold topk_row.
  pose proof (sort_desc_perm (enumerate x)) as Hperm.
  pose proof (sort_desc_sorted (enumerate x)) as Hsorted.
  set (s := sort_desc (enumerate x)) in *.
  assert (Hlen : length s = length x).
  { rewrite (Permutation_length Hperm). apply enumerate_length. }
  assert (Hnd : NoDup (map fst s)).
  { apply (Permutation_NoDup (l := map fst (enumerate x))).
    - symmetry. now apply Permutation_map.
    - unfold enumerate. rewrite combine_seq_fst. apply seq_NoDup. }
  rewrite <- (firstn_skipn k s) in Hnd, Hsorted.
  repeat split.
  - rewrite length_firstn. lia.
  - rewrite map_app in Hnd. now apply NoDup_app_remove_r in Hnd.
  - destruct p as [i v]. simpl.
    assert (In (i, v) (enumerate x)) as Hin.
    { apply (Permutation_in _ Hperm). eapply firstn_incl; eauto. }
    apply enumerate_in in Hin. tauto.
  - destruct p as [i v]. simpl.
    assert (In (i, v) (enumerate x)) as Hin.
    { apply (Permutation_in _ Hperm). eapply firstn_incl; eauto. }
    apply enumerate_in in Hin. tauto.
  - intros p j Hp Hj Hout.
    assert (In (j, nth j x 0) s) as Hin.
    { apply (Permutation_in (l := enumerate x)); [now symmetry|].
      apply enumerate_in. auto. }
    rewrite <- (firstn_skipn k s) in Hin. apply in_app_or in Hin.
    destruct Hin as [Hin|Hin].
    + exfalso. apply Hout. apply in_map_iff. exists (j, nth j x 0). auto.
    + apply (sorted_app_between _ _ Hsorted p (j, nth j x 0) Hp Hin).
Qed.

(** ** Scattering the selected values *)

Lemma upd_length i v l : length (upd i v l) = length l.
Proof.
  revert i. induction l as [|a l IH]; intros [|i]; simpl; auto.
Qed.

Lemma upd_nth_same i v l : (i < length l)%nat -> nth i (upd i v l) 0 = v.
Proof.
  revert i. induction l as [|a l IH]; intros [|i]; simpl; intros H; try lia; auto.
  apply IH. lia.
Qed.

Lemma upd_nth_other i j v l : i <> j -> nth j (upd i v l) 0 = nth j l 0.
Proof.
  revert i j. induction l as [|a l IH]; intros [|i] [|j]; simpl; intros H;
    try reflexivity; try congruence.
  apply IH. congruence.
Qed.

Lemma scatter_row_spec index :
  forall src result,
    (length index <= length src)%nat ->
    Forall (fun i => (i < length result)%nat) index ->
    NoDup index ->
    exists r, scatter_row result index src = Some r /\
              length r = length result /\
              (forall j, ~ In j index -> nth j r 0 = nth j result 0) /\
              (forall n, (n < length index)%nat ->
                         nth (nth n index O) r 0 = nth n src 0).
Proof.
  induction index as [|i index IH]; intros src result Hlen Hrange Hnd.
  - exists result. simpl. repeat split; auto. intros n Hn. simpl in Hn. lia.
  - destruct src as [|v src]; simpl in Hlen; [lia|].
    apply Forall_cons_iff in Hrange. destruct Hrange as [Hi Hrange].
    apply NoDup_cons_iff in Hnd. destruct Hnd as [Hnotin Hnd].
    destruct (IH src (upd i v result)) as [r [Hr [Hl [Hout Hin]]]];
      [lia | | exact Hnd |].
    { eapply Forall_impl; [|exact Hrange]. intros j Hj. now rewrite upd_length. }
    exists r. simpl. apply Nat.ltb_lt in Hi as Hi'. rewrite Hi'.
    repeat split.
    + exact Hr.
    + now rewrite Hl, upd_length.
    + intros j Hj. rewrite Hout by tauto. apply upd_nth_other. tauto.
    + intros [|n] Hn; simpl.
      * rewrite Hout by exact Hnotin. now apply upd_nth_same.
      * apply Hin. simpl in Hn. lia.
Qed.

Lemma nth_repeat_zero n j : nth j (repeat 0 n) 0 = 0.
Proof.
  revert j. induction n as [|n IH]; intros [|j]; simpl; auto.
Qed.

Lemma topk_scatter_row (f : R -> R) (k : nat) (x : list R) :
  (k <= length x)%nat ->
  exists r,
    scatter_row (repeat 0 (length x)) (map fst (topk_row k x))
                (map f (map snd (topk_row k x))) = Some r /\
    row_ok f k x r (map fst (topk_row k x)).
Proof.
  intros Hk. destruct (topk_row_spec k x Hk) as [Hlen [Hnd [Hval Hmax]]].
  set (top := topk_row k x) in *.
  destruct (scatter_row_spec (map fst top) (map f (map snd top)) (repeat 0 (length x)))
    as [r [Hr [Hl [Hout Hin]]]].
  - rewrite !length_map. lia.
  - apply Forall_forall. intros i Hi. apply in_map_iff in Hi.
    destruct Hi as [p [<- Hp]]. rewrite repeat_length. now apply Hval.
  - exact Hnd.
  - exists r. split; [exact Hr|]. unfold row_ok.
    rewrite repeat_length in Hl. rewrite length_map.
    assert (Hsel : forall j, In j (map fst top) ->
              exists p, In p top /\ fst p = j /\ nth j r 0 = f (snd p)).
    { intros j Hj. destruct (In_nth _ _ O Hj) as [n [Hn Hnth]].
      rewrite length_map in Hn.
      exists (nth n top (O, 0)). split; [now apply nth_In|].
      rewrite <- Hnth at 2.
      rewrite Hin by now rewrite length_map.
      rewrite (nth_indep _ 0 (f 0)) by now rewrite !length_map.
      rewrite map_nth.
      change 0 with (snd (O, 0)) at 2. rewrite map_nth.
      change O with (fst (O, 0)) in Hnth. rewrite map_nth in Hnth.
      split; [exact Hnth | reflexivity]. }
    repeat split; auto.
    + destruct (Hsel j H) as [p [Hp [<- _]]]. now apply Hval.
    + destruct (Hsel j H) as [p [Hp [Hj ->]]]. subst j. f_equal. now apply Hval.
    + intros j Hj. rewrite Hout by exact Hj. apply nth_repeat_zero.
    + intros j j' Hj Hj' Hout'. destruct (Hsel j Hj) as [p [Hp [<- _]]].
      destruct (Hval p Hp) as [_ <-]. now apply Hmax.
Qed.

Lemma topk_scatter_rows (f : R -> R) (k : nat) (xs : list (list R)) :
  Forall (fun x => (k <= length x)%nat) xs ->
  exists rs,
    scatter_rows (map (fun r => repeat 0 (length r)) xs)
                 (map (map fst) (map (topk_row k) xs))
                 (map (map f) (map (map snd) (map (topk_row k) xs))) = Some rs /\
    length rs = length xs /\
    forall i, (i < length xs)%nat ->
      row_ok f k (nth i xs []) (nth i rs [])
             (nth i (map (map fst) (map (topk_row k) xs)) []).
Proof.
  induction 1 as [|x xs Hx Hxs IH].
  - exists []. simpl. split; [reflexivity|]. split; [reflexivity|].
    intros i Hi. lia.
  - destruct IH as [rs [Hrs [Hlen Hrows]]].
    destruct (topk_scatter_row f k x Hx) as [r [Hr Hok]].
    exists (r :: rs). simpl. rewrite Hr. simpl. rewrite Hrs. simpl.
    split; [reflexivity|]. split; [now rewrite Hlen|].
    intros [|i] Hi; [exact Hok|]. apply Hrows. lia.
Qed.

Lemma wf_rows_ge (x : tensor) (k : nat) :
  wf x -> (k <= ncols x)%nat -> Forall (fun r => (k <= length r)%nat) (rows x).
Proof.
  intros Hwf Hk. eapply Forall_impl; [|exact Hwf]. simpl. intros r ->. exact Hk.
Qed.

Lemma wf_nth (x : tensor) (i : nat) :
  wf x -> (i < nrows x)%nat -> length (nth i (rows x) []) = ncols x.
Proof.
  intros Hwf Hi. unfold wf in Hwf. rewrite Forall_forall in Hwf.
  apply Hwf. now apply nth_In.
Qed.

(** ** The top-k activation *)

(** The rows of [TopK.forward]: shared by the statements on [TopK] and on
    [TopKSAE]. *)
Lemma TopK_forward_rows (self : TopK.t) (x : tensor) :
  wf x ->
  (0 <= TopK.k self <= Z.of_nat (ncols x))%Z ->
  exists topk result,
    torch_topk x (TopK.k self) = Some topk /\
    TopK.forward self x = Some result /\
    ncols result = ncols x /\ nrows result = nrows x /\ wf result /\
    forall i, (i < nrows x)%nat ->
      let sel := nth i (indices topk) [] in
      NoDup sel /\
      length sel = Z.to_nat (TopK.k self) /\
      (forall j, In j sel ->
         (j < ncols x)%nat /\
         get result i j = TopK.postact_fn self (get x i j)) /\
      (forall j, ~ In j sel -> get result i j = 0) /\
      (forall j j', In j sel -> (j' < ncols x)%nat -> ~ In j' sel ->
         get x i j' <= get x i j).
Proof.
  intros Hwf Hk.
  assert (Hk' : (Z.to_nat (TopK.k self) <= ncols x)%nat) by lia.
  destruct (topk_scatter_rows (TopK.postact_fn self) _ _ (wf_rows_ge x _ Hwf Hk'))
    as [rs [Hrs [Hlen Hrows]]].
  unfold TopK.forward, torch_topk.
  replace ((0 <=? TopK.k self)%Z && (TopK.k self <=? Z.of_nat (ncols x))%Z)%bool
    with true by (symmetry; apply andb_true_iff; split; apply Z.leb_le; lia).
  eexists. exists (mkT (ncols x) rs). split; [reflexivity|]. simpl.
  unfold scatter_, zeros_like, tmap. simpl. rewrite Hrs. simpl.
  split; [reflexivity|]. split; [reflexivity|]. split; [exact Hlen|].
  assert (Hrow : forall i, (i < nrows x)%nat ->
            row_ok (TopK.postact_fn self) (Z.to_nat (TopK.k self))
                   (nth i (rows x) []) (nth i rs [])
                   (nth i (map (map fst) (map (topk_row (Z.to_nat (TopK.k self))) (rows x))) [])).
  { intros i Hi. now apply Hrows. }
  split.
  - unfold wf. simpl. apply Forall_forall. intros r Hr.
    destruct (In_nth _ _ [] Hr) as [i [Hi <-]]. rewrite Hlen in Hi.
    destruct (Hrow i Hi) as [Hl _]. rewrite Hl. now apply wf_nth.
  - intros i Hi. destruct (Hrow i Hi) as [Hl [Hnd [Hsz [Hin [Hout Hmax]]]]].
    rewrite (wf_nth x i Hwf Hi) in Hin, Hmax.
    unfold get. simpl. repeat split; auto; now apply Hin.
Qed.

Lemma bop_ncols f a b c : bop f a b = Some c -> bdim (ncols a) (ncols b) = Some (ncols c).
Proof.
  unfold bop. intros H. inv_bind H. inv_bind H. injection H as <-. exact E.
Qed.

Lemma expand_length {A : Type} (d : A) n l : length (expand d n l) = n.
Proof.
  unfold expand. destruct (length l =? n)%nat eqn:E.
  - now apply Nat.eqb_eq.
  - apply repeat_length.
Qed.

(** A broadcast operation always yields rows of the announced length. *)
Lemma bop_wf f a b c : bop f a b = Some c -> wf c.
Proof.
  unfold bop. intros H. inv_bind H. inv_bind H. injection H as <-.
  unfold wf. simpl. apply Forall_forall. intros r Hr.
  unfold map2 at 1 in Hr. apply in_map_iff in Hr. destruct Hr as [p [<- _]].
  rewrite map2_length, !expand_length. lia.
Qed.

Lemma bdim_same n : bdim n n = Some n.
Proof. unfold bdim. now rewrite Nat.eqb_refl. Qed.

Lemma TopK_forward_range (self : TopK.t) (x : tensor) (r : tensor) :
  TopK.forward self x = Some r -> (0 <= TopK.k self <= Z.of_nat (ncols x))%Z.
Proof.
  unfold TopK.forward, torch_topk. intros H.
  destruct ((0 <=? TopK.k self)%Z && (TopK.k self <=? Z.of_nat (ncols x))%Z)%bool eqn:E;
    [|discriminate].
  apply andb_true_iff in E. destruct E as [E1 E2].
  apply Z.leb_le in E1, E2. lia.
Qed.

(** The pre-activation of [TopKSAE] has as many columns as the encoder has
    output units. *)
Lemma TopKSAE_pre_act_shape (self : TopKSAE.t) (X P : tensor) :
  length (TopKSAE.latent_bias self) = nrows (TopKSAE.encoder_weight self) ->
  TopKSAE.pre_act self X = Some P ->
  wf P /\ ncols P = nrows (TopKSAE.encoder_weight self).
Proof.
  intros Hb H. unfold TopKSAE.pre_act in H. inv_bind H. inv_bind H.
  split; [eapply bop_wf; eauto|].
  apply bop_ncols in H. unfold linear_nobias in E0.
  destruct (ncols a =? ncols (TopKSAE.encoder_weight self))%nat; [|discriminate].
  injection E0 as <-. simpl in H. rewrite Hb, bdim_same in H. now injection H.
Qed.

(** ** Row normalisation *)

Lemma sumsq_nonneg r : 0 <= sumsq r.
Proof.
  unfold sumsq. induction r as [|a r IH]; simpl; [lra|]. nra.
Qed.

Lemma sumsq_pos r : nonzero_row r -> 0 < sumsq r.
Proof.
  unfold sumsq. induction 1 as [a r Ha | a r Hr IH]; simpl.
  - pose proof (sumsq_nonneg r) as H. unfold sumsq in H. nra.
  - nra.
Qed.

Lemma row_norm_pos r : nonzero_row r -> 0 < row_norm r.
Proof.
  intros H. unfold row_norm. apply sqrt_lt_R0. now apply sumsq_pos.
Qed.

Lemma sumsq_scale r n :
  n <> 0 -> sumsq (map (fun x => x / n) r) = sumsq r / (n * n).
Proof.
  intros Hn. unfold sumsq. induction r as [|a r IH]; simpl.
  - field. exact Hn.
  - rewrite IH. field. exact Hn.
Qed.

Lemma row_norm_normalized r :
  nonzero_row r -> row_norm (map (fun x => x / row_norm r) r) = 1.
Proof.
  intros H. pose proof (row_norm_pos r H) as Hpos.
  unfold row_norm at 1. fold (sumsq (map (fun x => x / row_norm r) r)).
  rewrite sumsq_scale by lra.
  unfold row_norm. fold (sumsq r).
  rewrite sqrt_sqrt by apply sumsq_nonneg.
  replace (sumsq r / sumsq r) with 1; [apply sqrt_1|].
  pose proof (sumsq_pos r H). field. lra.
Qed.

Lemma normalize_rows_unit d :
  Forall nonzero_row (rows d) -> unit_rows (normalize_rows d).
Proof.
  intros H. unfold unit_rows, normalize_rows. simpl.
  apply Forall_forall. intros r Hr. apply in_map_iff in Hr.
  destruct Hr as [u [<- Hu]]. apply row_norm_normalized.
  rewrite Forall_forall in H. now apply H.
Qed.

Lemma read_write h l t : read (write h l t) l = t.
Proof. unfold read, write. simpl. now rewrite Nat.eqb_refl. Qed.

Lemma read_write_other h l l' t : l' <> l -> read (write h l t) l' = read h l'.
Proof.
  intros H. unfold read, write. simpl.
  destruct (l' =? l)%nat eqn:E; [apply Nat.eqb_eq in E; contradiction | reflexivity].
Qed.

Lemma normalize_in_place_unit h l :
  Forall nonzero_row (rows (read h l)) -> unit_rows (read (normalize_in_place h l) l).
Proof.
  intros H. unfold normalize_in_place. rewrite read_write.
  now apply normalize_rows_unit.
Qed.

(** ** C2: unit rows after [forward] with a learned dictionary *)

(** C2.  For each of the four models with [learn_D = True]: when no row of
    [D_] is the zero vector, every row of [D_] has L2 norm 1 in the store
    left by [forward], whether or not the rest of [forward] raises. *)
Theorem forward_learn_D_unit_rows :
  (forall (self : SparseCoding.t) h X,
      SparseCoding.learn_D self = true ->
      Forall nonzero_row (rows (read h (SparseCoding.D_ self))) ->
      unit_rows (read (fst (SparseCoding.forward self h X)) (SparseCoding.D_ self))) /\
  (forall (self : SparseAutoEncoder.t) h X,
      SparseAutoEncoder.learn_D self = true ->
      Forall nonzero_row (rows (read h (SparseAutoEncoder.D_ self))) ->
      unit_rows (read (fst (SparseAutoEncoder.forward self h X))
                      (SparseAutoEncoder.D_ self))) /\
  (forall (self : GatedSAE.t) h X,
      GatedSAE.learn_D self = true ->
      Forall nonzero_row (rows (read h (GatedSAE.D_ self))) ->
      unit_rows (read (fst (GatedSAE.forward self h X)) (GatedSAE.D_ self))) /\
  (forall (self : TopKSAE.t) h X,
      TopKSAE.learn_D self = true ->
      Forall nonzero_row (rows (read h (TopKSAE.D_ self))) ->
      unit_rows (read (fst (TopKSAE.forward self h X)) (TopKSAE.D_ self))).
Proof.
  repeat split; intros self h X Hl Hnz.
  - unfold SparseCoding.forward. rewrite Hl. simpl. now apply normalize_in_place_unit.
  - unfold SparseAutoEncoder.forward. rewrite Hl. simpl.
    now apply normalize_in_place_unit.
  - unfold GatedSAE.forward. rewrite Hl. simpl. now apply normalize_in_place_unit.
  - unfold TopKSAE.forward. rewrite Hl. simpl. now apply normalize_in_place_unit.
Qed.

(** ** C3: the code is non-negative *)










(** ** C7: the gate *)

Lemma gate_cases x :
  (x < 0 -> (sign x + 1) / 2 = 0) /\
  (x = 0 -> (sign x + 1) / 2 = 1 / 2) /\
  (0 < x -> (sign x + 1) / 2 = 1).
Proof.
  destruct (sign_cases x) as [Hn [Hz Hp]].
  repeat split; intros H; [rewrite Hn | rewrite Hz | rewrite Hp]; auto; lra.
Qed.

Lemma get_tmap f t i j :
  (i < nrows t)%nat -> (j < length (nth i (rows t) []))%nat ->
  get (tmap f t) i j = f (get t i j).
Proof.
  intros Hi Hj. unfold get, tmap. simpl.
  change (@nil R) with (map f []) at 1. rewrite map_nth.
  rewrite (nth_indep _ 0 (f 0)) by now rewrite length_map.
  apply map_nth.
Qed.

(** ** Element-wise operations on tensors of one shape *)

Lemma map2_seq {A B C : Type} (f : A -> B -> C) (da : A) (db : B) u :
  forall v, length u = length v ->
    map2 f u v = map (fun j => f (nth j u da) (nth j v db)) (seq 0 (length u)).
Proof.
  unfold map2. induction u as [|a u IH]; intros [|b v] Hlen; simpl in *;
    try discriminate; [reflexivity|].
  f_equal. rewrite <- seq_shift, map_map. apply IH. lia.
Qed.

Lemma expand_same {A : Type} (d : A) n l : length l = n -> expand d n l = l.
Proof.
  intros H. unfold expand. apply Nat.eqb_eq in H. now rewrite H.
Qed.

Lemma bop_same_shape f a b :
  wf a -> wf b -> ncols a = ncols b -> nrows a = nrows b ->
  bop f a b =
  Some (mkT (ncols a)
          (map (fun i => map (fun j => f (get a i j) (get b i j)) (seq 0 (ncols a)))
               (seq 0 (nrows a)))).
Proof.
  intros Ha Hb Hc Hr. unfold bop. rewrite <- Hc, <- Hr, !bdim_same. simpl.
  f_equal. f_equal.
  rewrite !expand_same by (unfold nrows in *; lia).
  rewrite (map2_seq _ [] []) by (unfold nrows in *; lia).
  apply map_ext_in. intros i Hi. apply in_seq in Hi.
  assert (Hla : length (nth i (rows a) []) = ncols a).
  { apply wf_nth; auto. lia. }
  assert (Hlb : length (nth i (rows b) []) = ncols a).
  { rewrite Hc. apply wf_nth; auto. lia. }
  rewrite !expand_same by auto.
  rewrite (map2_seq _ 0 0) by lia. rewrite Hla. reflexivity.
Qed.

Lemma mse_loss_sum_same_shape a b :
  wf a -> wf b -> ncols a = ncols b -> nrows a = nrows b ->
  mse_loss a b Sum = Some (sum_sq_err a b).
Proof.
  intros Ha Hb Hc Hr. unfold mse_loss. rewrite (bop_same_shape _ a b) by auto.
  simpl. f_equal. unfold tsum, tmap, sum_sq_err. simpl.
  rewrite !map_map. f_equal. apply map_ext. intros i.
  now rewrite map_map.
Qed.

(** ** C6: the loss of [TopKSAE] *)

(** C6.  [TopKSAE.loss_forward] does not depend on [weight]; the loss it
    returns is the summed squared error of the reconstruction [X_] of
    [forward] against [X] and has no sparsity term: for [X_] and [X] of one
    shape it is the sum over all entries of [(X_ - X)^2]. *)
Theorem TopKSAE_loss_forward_sum_sq (self : TopKSAE.t) h X :
  (forall weight weight',
      TopKSAE.loss_forward self h X weight = TopKSAE.loss_forward self h X weight') /\
  (forall weight S_ X_ loss,
      snd (TopKSAE.loss_forward self h X weight) = Some (S_, X_, loss) ->
      snd (TopKSAE.forward self h X) = Some (S_, X_) /\
      mse_loss X_ X Sum = Some loss /\
      (wf X -> ncols X_ = ncols X -> nrows X_ = nrows X ->
       loss = sum_sq_err X_ X)).
Proof.
  split; [reflexivity|].
  intros weight S_ X_ loss H. unfold TopKSAE.loss_forward in H.
  destruct (TopKSAE.forward self h X) as [h' r] eqn:Hf. simpl in H.
  inv_bind H. destruct a as [S X']. inv_bind H. injection H as <- <- <-.
  simpl. split; [exact E|]. split; [exact E0|].
  intros HwfX Hc Hr.
  assert (HwfX' : wf X').
  { unfold TopKSAE.forward in Hf. injection Hf as _ <-.
    do 4 inv_bind E. injection E as _ <-. eapply bop_wf; eauto. }
  rewrite (mse_loss_sum_same_shape X' X) in E0 by auto.
  now injection E0.
Qed.

(** ** Broadcast operations in closed form *)

Lemma bop_rows_same f a b :
  wf a -> wf b -> ncols a = ncols b -> nrows a = nrows b ->
  bop f a b = Some (mkT (ncols a) (map2 (map2 f) (rows a) (rows b))).
Proof.
  intros Ha Hb Hc Hr. unfold bop. rewrite <- Hc, <- Hr, !bdim_same. simpl.
  do 2 f_equal. unfold nrows in Hr.
  rewrite !expand_same by (unfold nrows; lia).
  unfold map2 at 1 3. apply map_ext_in. intros [u v] Hin. simpl.
  unfold wf in Ha, Hb. rewrite Forall_forall in Ha, Hb.
  rewrite !expand_same; auto.
  - rewrite Hc. apply Hb. eapply in_combine_r; eauto.
  - apply Ha. eapply in_combine_l; eauto.
Qed.

Lemma expand_singleton (x : R) n : expand 0 n [x] = repeat x n.
Proof.
  unfold expand. simpl. destruct n as [|[|n]]; reflexivity.
Qed.

Lemma map2_repeat_l (f : R -> R -> R) x v :
  map2 f (repeat x (length v)) v = map (f x) v.
Proof.
  unfold map2. induction v as [|a v IH]; simpl; [reflexivity|]. now rewrite IH.
Qed.

Lemma bdim_one n : bdim 1 n = Some n.
Proof. destruct n as [|[|n]]; reflexivity. Qed.

(** A column of shape (N, 1) against a tensor of shape (N, M). *)
Lemma bop_rows_col f s b :
  wf b -> ncols s = 1%nat -> wf s -> nrows s = nrows b ->
  bop f s b =
  Some (mkT (ncols b) (map2 (fun u v => map (f (hd 0 u)) v) (rows s) (rows b))).
Proof.
  intros Hb Hc Hs Hr. unfold bop. rewrite Hc, bdim_one, <- Hr, bdim_same. simpl.
  do 2 f_equal. unfold nrows in Hr.
  rewrite !expand_same by (unfold nrows; lia).
  unfold map2 at 1 3. apply map_ext_in. intros [u v] Hin. simpl.
  unfold wf in Hs, Hb. rewrite Forall_forall in Hs, Hb.
  assert (Hu : length u = 1%nat).
  { rewrite <- Hc. apply Hs. eapply in_combine_l; eauto. }
  assert (Hv : length v = ncols b).
  { apply Hb. eapply in_combine_r; eauto. }
  destruct u as [|x [|y u]]; simpl in Hu; try discriminate.
  rewrite expand_singleton, expand_same by exact Hv.
  rewrite <- Hv. apply map2_repeat_l.
Qed.

Lemma normalize_rows_wf d : wf d -> wf (normalize_rows d).
Proof.
  unfold wf, normalize_rows. simpl. intros H.
  apply Forall_forall. intros r Hr. apply in_map_iff in Hr.
  destruct Hr as [u [<- Hu]]. rewrite length_map.
  rewrite Forall_forall in H. now apply H.
Qed.

Lemma map2_rows_wf {A B : Type} (F : list A -> list B -> list R) n (us : list (list A)) vs :
  (forall u v, In u us -> In v vs -> length (F u v) = n) ->
  Forall (fun r => length r = n) (map2 F us vs).
Proof.
  intros HF. unfold map2. apply Forall_forall. intros r Hr.
  apply in_map_iff in Hr. destruct Hr as [[u v] [<- Hin]]. simpl.
  apply HF; [eapply in_combine_l | eapply in_combine_r]; eauto.
Qed.

(** The gradient rows after the three tensor operations of the method. *)
Lemma proj_rows_closed_form (G D : list (list R)) :
  let Dn := map (fun r => map (fun x => x / row_norm r) r) D in
  map2 (map2 Rminus) G
       (map2 (fun u v => map (Rmult (hd 0 u)) v)
             (map (fun r => [sum r]) (map2 (map2 Rmult) G Dn)) Dn)
  = map2 proj_row G D.
Proof.
  revert D. unfold map2 at 1 2 4 6.
  induction G as [|g G IH]; intros [|d D]; simpl; try reflexivity.
  f_equal. apply IH.
Qed.

(** ** C4, C5: [make_decoder_weights_and_grad_unit_norm] *)

Lemma obind_ret {A B : Type} (a : A) (f : A -> option B) : obind (Some a) f = f a.
Proof. reflexivity. Qed.

Lemma make_unit_norm_closed_form (self : GatedSAE.t) (h : heap) (g : tensor) :
  GatedSAE.D_grad self = Some g ->
  wf g -> wf (read h (GatedSAE.D_ self)) -> same_shape g (read h (GatedSAE.D_ self)) ->
  exists self',
    GatedSAE.make_decoder_weights_and_grad_unit_norm self h = Some (self', h) /\
    GatedSAE.D_ self' = GatedSAE.D_ self /\
    GatedSAE.D_grad self' =
      Some (mkT (ncols g) (map2 proj_row (rows g) (rows (read h (GatedSAE.D_ self))))).
Proof.
  intros Hg Hwg Hwd [Hc Hr].
  unfold GatedSAE.make_decoder_weights_and_grad_unit_norm. rewrite Hg, obind_ret.
  set (D := read h (GatedSAE.D_ self)) in *.
  pose proof (normalize_rows_wf D Hwd) as Hwn.
  assert (Hcn : ncols (normalize_rows D) = ncols D) by reflexivity.
  assert (Hrn : nrows (normalize_rows D) = nrows D).
  { unfold nrows, normalize_rows. simpl. apply length_map. }
  rewrite (bop_rows_same Rmult g (normalize_rows D)) by (auto; congruence).
  rewrite obind_ret.
  set (prod := map2 (map2 Rmult) (rows g) (rows (normalize_rows D))).
  assert (Hlp : length prod = nrows D).
  { unfold prod. rewrite map2_length. unfold nrows in *. lia. }
  rewrite (bop_rows_col Rmult (GatedSAE.sum_last_keepdim (mkT (ncols g) prod))
             (normalize_rows D)); auto.
  2:{ unfold wf. simpl. apply Forall_forall. intros r Hin.
      apply in_map_iff in Hin. now destruct Hin as [u [<- _]]. }
  2:{ unfold nrows at 1. simpl. rewrite length_map. congruence. }
  rewrite obind_ret.
  set (proj := map2 (fun u v => map (Rmult (hd 0 u)) v)
                    (rows (GatedSAE.sum_last_keepdim (mkT (ncols g) prod)))
                    (rows (normalize_rows D))).
  assert (Hwp : wf (mkT (ncols (normalize_rows D)) proj)).
  { unfold wf. simpl. apply map2_rows_wf. intros u v _ Hv.
    rewrite length_map. unfold wf in Hwn. rewrite Forall_forall in Hwn.
    now apply Hwn. }
  assert (Hrp : nrows (mkT (ncols (normalize_rows D)) proj) = nrows D).
  { unfold nrows, proj. simpl. rewrite map2_length, !length_map, Hlp.
    unfold nrows. lia. }
  unfold GatedSAE.isub.
  rewrite (bop_rows_same Rminus g (mkT (ncols (normalize_rows D)) proj))
    by (auto; simpl; congruence).
  rewrite obind_ret.
  change (rows (mkT (ncols (normalize_rows D)) proj)) with proj.
  change (ncols (mkT (ncols g) (map2 (map2 Rminus) (rows g) proj))) with (ncols g).
  assert (Hrr : nrows (mkT (ncols g) (map2 (map2 Rminus) (rows g) proj)) = nrows g).
  { unfold nrows. simpl. rewrite map2_length. unfold nrows in *. simpl in Hrp. lia. }
  rewrite Hrr, !Nat.eqb_refl. simpl andb. cbv iota. rewrite obind_ret.
  eexists. split; [reflexivity|]. simpl. split; [reflexivity|].
  do 2 f_equal. unfold proj, prod. apply proj_rows_closed_form.
Qed.

Lemma dot_map2_minus u w v :
  length u = length v -> length w = length v ->
  dot (map2 Rminus u w) v = dot u v - dot w v.
Proof.
  unfold dot, map2. revert u w.
  induction v as [|c v IH]; intros [|a u] [|b w] Hu Hw; simpl in *;
    try discriminate; [lra|].
  rewrite IH by lia. lra.
Qed.

Lemma dot_scale c u v : dot (map (Rmult c) u) v = c * dot u v.
Proof.
  unfold dot, map2. revert v.
  induction u as [|a u IH]; intros [|b v]; simpl; try lra.
  rewrite IH. lra.
Qed.

Lemma dot_self v : dot v v = sumsq v.
Proof.
  unfold dot, map2, sumsq. induction v as [|a v IH]; simpl; [reflexivity|].
  now rewrite IH.
Qed.

Lemma sumsq_normalized d : nonzero_row d -> sumsq (map (fun x => x / row_norm d) d) = 1.
Proof.
  intros H. pose proof (row_norm_pos d H) as Hpos.
  rewrite sumsq_scale by lra. unfold row_norm. fold (sumsq d).
  rewrite sqrt_sqrt by apply sumsq_nonneg.
  pose proof (sumsq_pos d H). field. lra.
Qed.

(** The projected row has no component left along the normalised row. *)
Lemma proj_row_orthogonal g d :
  length g = length d -> nonzero_row d ->
  dot (proj_row g d) (map (fun x => x / row_norm d) d) = 0.
Proof.
  intros Hlen Hnz. unfold proj_row.
  rewrite dot_map2_minus by (rewrite ?length_map; auto).
  rewrite dot_scale, dot_self, sumsq_normalized by exact Hnz. lra.
Qed.

Lemma nth_map2 {A B C : Type} (F : A -> B -> C) da db dc us vs i :
  (i < length us)%nat -> (i < length vs)%nat ->
  nth i (map2 F us vs) dc = F (nth i us da) (nth i vs db).
Proof.
  unfold map2. revert vs i.
  induction us as [|u us IH]; intros [|v vs] [|i] Hu Hv; simpl in *; try lia; auto.
  apply IH; lia.
Qed.

(** C5.  Given a stored gradient of the shape of [D_] and no zero row in
    [D_], [make_decoder_weights_and_grad_unit_norm] returns, and for every
    dictionary row the dot product of that row's stored gradient with the
    row's normalised direction (as it was before the call) is 0. *)
Theorem make_unit_norm_grad_orthogonal (self : GatedSAE.t) (h : heap) (g : tensor) :
  GatedSAE.D_grad self = Some g ->
  wf g -> wf (read h (GatedSAE.D_ self)) ->
  same_shape g (read h (GatedSAE.D_ self)) ->
  Forall nonzero_row (rows (read h (GatedSAE.D_ self))) ->
  exists self' h' g',
    GatedSAE.make_decoder_weights_and_grad_unit_norm self h = Some (self', h') /\
    GatedSAE.D_grad self' = Some g' /\
    same_shape g' g /\
    forall i, (i < nrows (read h (GatedSAE.D_ self)))%nat ->
      dot (nth i (rows g') [])
          (nth i (rows (normalize_rows (read h (GatedSAE.D_ self)))) []) = 0.
Proof.
  intros Hg Hwg Hwd Hsh Hnz.
  destruct (make_unit_norm_closed_form self h g Hg Hwg Hwd Hsh) as [self' [Hm [_ Hg']]].
  destruct Hsh as [Hc Hr].
  set (D := read h (GatedSAE.D_ self)) in *.
  exists self', h, (mkT (ncols g) (map2 proj_row (rows g) (rows D))).
  split; [exact Hm|]. split; [exact Hg'|]. split.
  - split; [reflexivity|]. unfold nrows in *. simpl. rewrite map2_length. lia.
  - intros i Hi. simpl.
    rewrite (nth_map2 proj_row [] [] []) by (unfold nrows in *; lia).
    change (@nil R) with ((fun r => map (fun x => x / row_norm r) r) []) at 3.
    rewrite map_nth. apply proj_row_orthogonal.
    + rewrite !wf_nth; auto. lia.
    + rewrite Forall_forall in Hnz. apply Hnz. now apply nth_In.
Qed.

Lemma make_unit_norm_frame (self self' : GatedSAE.t) (h h' : heap) :
  GatedSAE.make_decoder_weights_and_grad_unit_norm self h = Some (self', h') ->
  h' = h /\ GatedSAE.D_ self' = GatedSAE.D_ self.
Proof.
  unfold GatedSAE.make_decoder_weights_and_grad_unit_norm. intros H.
  do 4 inv_bind H. injection H as <- <-. auto.
Qed.

Lemma row_norm_two : row_norm [2] = 2.
Proof.
  unfold row_norm. simpl. replace (2 * 2 + 0) with (2 * 2) by lra.
  apply sqrt_square. lra.
Qed.

(** C4.  The method does not store the normalised rows: on a dictionary
    [[2]] with gradient [[1]] it returns with [D_] still [[2]], whose row
    has norm 2, not 1. *)
Theorem make_unit_norm_leaves_D_unnormalised :
  exists self' h',
    GatedSAE.make_decoder_weights_and_grad_unit_norm gated_two heap_two
      = Some (self', h') /\
    read h' (GatedSAE.D_ self') = mkT 1 [[2]] /\
    ~ unit_rows (read h' (GatedSAE.D_ self')).
Proof.
  destruct (make_unit_norm_closed_form gated_two heap_two (mkT 1 [[1]]))
    as [self' [Hm [HD _]]].
  - reflexivity.
  - repeat constructor.
  - repeat constructor.
  - split; reflexivity.
  - exists self', heap_two. split; [exact Hm|]. rewrite HD. split; [reflexivity|].
    unfold unit_rows. simpl. intros H. apply Forall_inv in H.
    rewrite row_norm_two in H. lra.
Qed.

(** ** C9: [SparseCoding.forward] ignores its argument *)

(** C9.  [SparseCoding.forward] returns the same store and the same result
    for any two arguments, [None] included; the code it returns is
    [exp(log_S_)] and the reconstruction is that code times the current
    dictionary. *)
Theorem SparseCoding_forward_ignores_X (self : SparseCoding.t) (h : heap) :
  (forall X1 X2 : option tensor,
      SparseCoding.forward self h X1 = SparseCoding.forward self h X2) /\
  (forall X S_ X_,
      snd (SparseCoding.forward self h X) = Some (S_, X_) ->
      S_ = tmap exp (SparseCoding.log_S_ self) /\
      matmul S_ (read (fst (SparseCoding.forward self h X)) (SparseCoding.D_ self))
        = Some X_).
Proof.
  split; [reflexivity|].
  intros X S_ X_ H. unfold SparseCoding.forward in *. simpl in *.
  inv_bind H. injection H as <- <-. split; [reflexivity | exact E].
Qed.

(** ** C8: a supplied dictionary *)

Lemma SparseCoding_fixed_frame (self : SparseCoding.t) h :
  SparseCoding.learn_D self = false ->
  (forall X, fst (SparseCoding.forward self h X) = h) /\
  (forall X w, fst (SparseCoding.loss_forward self h X w) = h).
Proof.
  intros Hl. unfold SparseCoding.loss_forward, SparseCoding.forward.
  rewrite Hl. split; reflexivity.
Qed.

Lemma SparseAutoEncoder_fixed_frame (self : SparseAutoEncoder.t) h :
  SparseAutoEncoder.learn_D self = false ->
  (forall X, fst (SparseAutoEncoder.forward self h X) = h) /\
  (forall X w, fst (SparseAutoEncoder.loss_forward self h X w) = h).
Proof.
  intros Hl. unfold SparseAutoEncoder.loss_forward, SparseAutoEncoder.forward.
  rewrite Hl. split; reflexivity.
Qed.

Lemma GatedSAE_fixed_frame (self : GatedSAE.t) h :
  GatedSAE.learn_D self = false ->
  (forall X, fst (GatedSAE.forward self h X) = h) /\
  (forall X w, fst (GatedSAE.loss_forward self h X w) = h).
Proof.
  intros Hl. unfold GatedSAE.loss_forward, GatedSAE.forward.
  rewrite Hl. split; reflexivity.
Qed.

Lemma TopKSAE_fixed_frame (self : TopKSAE.t) h :
  TopKSAE.learn_D self = false ->
  (forall X, fst (TopKSAE.forward self h X) = h) /\
  (forall X w, fst (TopKSAE.loss_forward self h X w) = h).
Proof.
  intros Hl. unfold TopKSAE.loss_forward, TopKSAE.forward.
  rewrite Hl. split; reflexivity.
Qed.

Lemma run_calls_frame {M A B : Type}
  (fwd : M -> heap -> tensor -> heap * A)
  (loss : M -> heap -> tensor -> R -> heap * B) (self : M) :
  (forall h X, fst (fwd self h X) = h) ->
  (forall h X w, fst (loss self h X w) = h) ->
  forall cs h, run_calls fwd loss self cs h = h.
Proof.
  intros Hf Hl. unfold run_calls.
  induction cs as [|c cs IH]; intros h; simpl; [reflexivity|].
  destruct c as [X|X w]; [rewrite Hf | rewrite Hl]; apply IH.
Qed.

Lemma GatedSAE_init_fixed h D kaiming_D kaiming_W :
  GatedSAE.init h D false kaiming_D kaiming_W =
  (GatedSAE.mk false D None kaiming_W
     (repeat 0 (ncols (read h D))) (repeat 0 (nrows (read h D)))
     (repeat 0 (ncols (read h D))) (repeat 0 (nrows (read h D)))
     (repeat 0 (nrows (read h D))) (repeat 0 (nrows (read h D)))
     (nrows (read h D)),
   normalize_in_place h D).
Proof. reflexivity. Qed.

(** C8, as the code has it.  With [learn_D = False], [SparseCoding],
    [SparseAutoEncoder] and [TopKSAE] take the supplied tensor as [D_] and
    leave the store as it is, at construction and over any sequence of
    [forward] and [loss_forward] calls.  [GatedSAE] takes the supplied tensor
    as [D_] too, but its constructor divides the rows of that tensor by
    their norms, in place; the calls that follow leave the store as the
    constructor left it. *)
Theorem fixed_D_frame :
  (forall h S D randn cs,
      let self := fst (SparseCoding.init h S D false randn) in
      let h0 := snd (SparseCoding.init h S D false randn) in
      SparseCoding.D_ self = D /\ h0 = h /\
      run_calls SparseCoding_forward_on SparseCoding.loss_forward self cs h0 = h) /\
  (forall h D relu w b randn cs,
      let self := fst (SparseAutoEncoder.init h D false relu w b randn) in
      let h0 := snd (SparseAutoEncoder.init h D false relu w b randn) in
      SparseAutoEncoder.D_ self = D /\ h0 = h /\
      run_calls SparseAutoEncoder.forward SparseAutoEncoder.loss_forward self cs h0 = h) /\
  (forall h D k postact w randn cs,
      let self := fst (TopKSAE.init h D false k postact w randn) in
      let h0 := snd (TopKSAE.init h D false k postact w randn) in
      TopKSAE.D_ self = D /\ h0 = h /\
      run_calls TopKSAE.forward TopKSAE.loss_forward self cs h0 = h) /\
  (forall h D kaiming_D kaiming_W cs,
      let self := fst (GatedSAE.init h D false kaiming_D kaiming_W) in
      let h0 := snd (GatedSAE.init h D false kaiming_D kaiming_W) in
      GatedSAE.D_ self = D /\
      read h0 D = normalize_rows (read h D) /\
      (forall l, l <> D -> read h0 l = read h l) /\
      run_calls GatedSAE.forward GatedSAE.loss_forward self cs h0 = h0).
Proof.
  split; [|split; [|split]].
  - intros h S D randn cs. simpl. repeat split.
    apply run_calls_frame; intros; now apply SparseCoding_fixed_frame.
  - intros h D relu w b randn cs. simpl. repeat split.
    apply run_calls_frame; intros; now apply SparseAutoEncoder_fixed_frame.
  - intros h D k postact w randn cs. simpl. repeat split.
    apply run_calls_frame; intros; now apply TopKSAE_fixed_frame.
  - intros h D kD kW cs. simpl. split; [reflexivity|]. split; [|split].
    + unfold normalize_in_place. apply read_write.
    + intros l Hl. unfold normalize_in_place. now apply read_write_other.
    + apply run_calls_frame; intros; now apply GatedSAE_fixed_frame.
Qed.

(** The claim as written fails for [GatedSAE]: constructed with
    [learn_D = False] on the supplied dictionary [[2]], its [D_] is [[1]]. *)
Lemma GatedSAE_init_renormalises_supplied_D :
  let self := fst (GatedSAE.init heap_two 0%nat false (mkT 1 [[1]]) (mkT 1 [[1]])) in
  let h0 := snd (GatedSAE.init heap_two 0%nat false (mkT 1 [[1]]) (mkT 1 [[1]])) in
  GatedSAE.learn_D self = false /\
  read heap_two 0%nat = mkT 1 [[2]] /\
  read h0 (GatedSAE.D_ self) = mkT 1 [[1]] /\
  read h0 (GatedSAE.D_ self) <> read heap_two 0%nat.
Proof.
  cbv zeta. rewrite !GatedSAE_init_fixed.
  cbn [fst snd GatedSAE.D_ GatedSAE.learn_D].
  unfold normalize_in_place. rewrite read_write.
  assert (H : normalize_rows (read heap_two 0%nat) = mkT 1 [[1]]).
  { unfold normalize_rows. simpl. rewrite row_norm_two.
    replace (2 / 2) with 1 by lra. reflexivity. }
  rewrite H. repeat split. unfold read. simpl. intros Heq.
  injection Heq as Heq. lra.
Qed.

(** ** C1, C10: the top-k activation and its precondition *)

(** Decides the comparisons of reals met while evaluating a model on
    concrete entries. *)
Ltac eval_reals :=
  repeat (simpl;
          match goal with
          | |- context [Rlt_dec ?a ?b] => destruct (Rlt_dec a b); try lra
          end).

Example TopK_forward_132 : TopK.forward top2 x_132 = Some (mkT 3 [[0; 3; 2]]).
Proof.
  unfold TopK.forward, torch_topk, top2, x_132, default_postact, relu, topk_row,
    scatter_, tmap, zeros_like. eval_reals. reflexivity.
Qed.

(** C1.  For a tensor [x] and [0 <= k <= x.size(-1)], [TopK.forward] returns
    a tensor of the shape of [x]; in each row the [k] positions selected by
    [torch.topk] are distinct and lie in the row, they hold [postact_fn] of
    the input's value there, no position left out holds a larger input value
    than a selected one, and every position left out holds exactly zero. *)
Theorem TopK_forward_selects (self : TopK.t) (x : tensor) :
  wf x ->
  (0 <= TopK.k self <= Z.of_nat (ncols x))%Z ->
  exists topk result,
    torch_topk x (TopK.k self) = Some topk /\
    TopK.forward self x = Some result /\
    ncols result = ncols x /\ nrows result = nrows x /\ wf result /\
    forall i, (i < nrows x)%nat ->
      let sel := nth i (indices topk) [] in
      NoDup sel /\
      length sel = Z.to_nat (TopK.k self) /\
      (forall j, In j sel ->
         (j < ncols x)%nat /\
         get result i j = TopK.postact_fn self (get x i j)) /\
      (forall j, ~ In j sel -> get result i j = 0) /\
      (forall j j', In j sel -> (j' < ncols x)%nat -> ~ In j' sel ->
         get x i j' <= get x i j).
Proof.
  exact (TopK_forward_rows self x).
Qed.

Lemma TopK_forward_selects_witness :
  wf x_132 /\
  (0 <= TopK.k top2 <= Z.of_nat (ncols x_132))%Z /\
  exists result,
    TopK.forward top2 x_132 = Some result /\ ncols result = 3%nat /\
    nrows result = 1%nat.
Proof.
  assert (Hwf : wf x_132) by (repeat constructor).
  assert (Hk : (0 <= TopK.k top2 <= Z.of_nat (ncols x_132))%Z) by (simpl; lia).
  split; [exact Hwf|]. split; [exact Hk|].
  destruct (TopK_forward_selects top2 x_132 Hwf Hk)
    as [topk [result [_ [Hres [Hc [Hr _]]]]]].
  exists result. auto.
Defined.

(** C10.  [TopK.forward] returns exactly when [0 <= k <= x.size(-1)].  For
    [TopKSAE], whose pre-activation has [N] columns ([N] the number of rows
    of the encoder weight, which is the length of [latent_bias]): outside
    [0 <= k <= N] every [forward] raises, inside it the top-k activation
    never raises on a pre-activation that was computed, and the constructor
    stores any [k] it is given. *)
Theorem TopK_precondition :
  (forall (self : TopK.t) (x : tensor),
      wf x ->
      (TopK.forward self x <> None <->
       (0 <= TopK.k self <= Z.of_nat (ncols x))%Z)) /\
  (forall (self : TopKSAE.t) h X,
      length (TopKSAE.latent_bias self) = nrows (TopKSAE.encoder_weight self) ->
      ~ (0 <= TopKSAE.k self <= Z.of_nat (nrows (TopKSAE.encoder_weight self)))%Z ->
      snd (TopKSAE.forward self h X) = None) /\
  (forall (self : TopKSAE.t) X S_pre_act,
      length (TopKSAE.latent_bias self) = nrows (TopKSAE.encoder_weight self) ->
      (0 <= TopKSAE.k self <= Z.of_nat (nrows (TopKSAE.encoder_weight self)))%Z ->
      TopKSAE.pre_act self X = Some S_pre_act ->
      TopK.forward (TopKSAE.activation self) S_pre_act <> None) /\
  (forall h D learn_D k postact_fn w randn,
      TopKSAE.k (fst (TopKSAE.init h D learn_D k postact_fn w randn)) = k).
Proof.
  split; [|split; [|split]].
  - intros self x Hwf. split.
    + intros H. destruct (TopK.forward self x) as [r|] eqn:E; [|congruence].
      eapply TopK_forward_range; eauto.
    + intros Hk. destruct (TopK_forward_rows self x Hwf Hk) as [topk [r [_ [Hr _]]]].
      rewrite Hr. discriminate.
  - intros self h X Hb Hk. unfold TopKSAE.forward. simpl.
    destruct (TopKSAE.pre_act self X) as [P|] eqn:EP; [|reflexivity].
    simpl. destruct (TopKSAE_pre_act_shape self X P Hb EP) as [_ Hc].
    destruct (TopK.forward (TopKSAE.activation self) P) as [r|] eqn:E; [|reflexivity].
    exfalso. apply Hk. apply TopK_forward_range in E. rewrite Hc in E. exact E.
  - intros self X P Hb Hk EP.
    destruct (TopKSAE_pre_act_shape self X P Hb EP) as [Hwf Hc].
    unfold TopKSAE.k in Hk. rewrite <- Hc in Hk.
    destruct (TopK_forward_rows _ P Hwf Hk) as [topk [r [_ [Hr _]]]].
    rewrite Hr. discriminate.
  - intros h D learn_D k postact_fn w randn. unfold TopKSAE.init.
    destruct learn_D; reflexivity.
Qed.

Lemma TopK_precondition_witness :
  (wf x_132 /\ TopK.forward top2 x_132 <> None) /\
  (~ (0 <= 2 <= 1)%Z /\
   snd (TopKSAE.forward
          (TopKSAE.mk false (mkT 1 [[1]]) [0] top2 0%nat [0]) heap_two X_three) = None) /\
  TopK.forward (TopKSAE.activation (topksae_one false))
    (mkT 1 [[(3 - 0) * 1 + 0 + 0]]) <> None.
Proof.
  destruct TopK_precondition as [H1 [H2 [H3 _]]].
  split; [|split].
  - assert (Hwf : wf x_132) by (repeat constructor).
    split; [exact Hwf|]. apply (H1 top2 x_132 Hwf). simpl. lia.
  - assert (Hk : ~ (0 <= 2 <= 1)%Z) by lia.
    split; [exact Hk|]. apply H2; [reflexivity | exact Hk].
  - apply (H3 (topksae_one false) X_three);
      [reflexivity | unfold TopKSAE.k, nrows; simpl; lia | reflexivity].
Defined.

(** ** The statements at concrete models *)

Lemma nonzero_row_two : Forall nonzero_row (rows (read heap_two 0%nat)).
Proof.
  repeat constructor. lra.
Defined.

Lemma forward_learn_D_unit_rows_witness :
  Forall nonzero_row (rows (read heap_two 0%nat)) /\
  unit_rows (read (fst (SparseCoding.forward (coding_one true) heap_two None)) 0%nat) /\
  unit_rows (read (fst (SparseAutoEncoder.forward (autoencoder_one true) heap_two X_three))
                  0%nat) /\
  unit_rows (read (fst (GatedSAE.forward (gated_one true) heap_two X_three)) 0%nat) /\
  unit_rows (read (fst (TopKSAE.forward (topksae_one true) heap_two X_three)) 0%nat).
Proof.
  destruct forward_learn_D_unit_rows as [H1 [H2 [H3 H4]]].
  split; [exact nonzero_row_two|]. split; [|split; [|split]].
  - apply (H1 (coding_one true) heap_two None); [reflexivity | exact nonzero_row_two].
  - apply (H2 (autoencoder_one true) heap_two X_three);
      [reflexivity | exact nonzero_row_two].
  - apply (H3 (gated_one true) heap_two X_three); [reflexivity | exact nonzero_row_two].
  - apply (H4 (topksae_one true) heap_two X_three); [reflexivity | exact nonzero_row_two].
Defined.


Lemma make_unit_norm_grad_orthogonal_witness :
  exists self' h' g',
    GatedSAE.make_decoder_weights_and_grad_unit_norm gated_two heap_two
      = Some (self', h') /\
    GatedSAE.D_grad self' = Some g' /\
    dot (nth 0 (rows g') []) (nth 0 (rows (normalize_rows (read heap_two 0%nat))) []) = 0.
Proof.
  destruct (make_unit_norm_grad_orthogonal gated_two heap_two (mkT 1 [[1]]))
    as [self' [h' [g' [Hm [Hg [_ Ho]]]]]].
  - reflexivity.
  - repeat constructor.
  - repeat constructor.
  - split; reflexivity.
  - exact nonzero_row_two.
  - exists self', h', g'. split; [exact Hm|]. split; [exact Hg|].
    apply (Ho 0%nat). unfold nrows. simpl. lia.
Defined.

Lemma TopKSAE_loss_forward_sum_sq_witness :
  exists S_ X_ loss,
    snd (TopKSAE.loss_forward (topksae_one false) heap_two X_three 5) = Some (S_, X_, loss) /\
    snd (TopKSAE.loss_forward (topksae_one false) heap_two X_three 7) = Some (S_, X_, loss) /\
    loss = sum_sq_err X_ X_three.
Proof.
  destruct (TopKSAE_loss_forward_sum_sq (topksae_one false) heap_two X_three) as [H1 H2].
  do 3 eexists. split; [reflexivity|]. split; [rewrite (H1 7 5); reflexivity|].
  eapply (H2 5); [reflexivity | repeat constructor | reflexivity | reflexivity].
Defined.

Lemma SparseCoding_forward_ignores_X_witness :
  SparseCoding.forward (coding_one false) heap_two None
    = SparseCoding.forward (coding_one false) heap_two (Some X_three) /\
  exists S_ X_,
    snd (SparseCoding.forward (coding_one false) heap_two (Some X_three)) = Some (S_, X_) /\
    S_ = tmap exp (mkT 1 [[0]]).
Proof.
  destruct (SparseCoding_forward_ignores_X (coding_one false) heap_two) as [H1 H2].
  split; [apply H1|].
  do 2 eexists. split; [reflexivity|].
  eapply (H2 (Some X_three)). reflexivity.
Defined.

Lemma fixed_D_frame_witness :
  let init := GatedSAE.init heap_two 0%nat false (mkT 1 [[1]]) (mkT 1 [[1]]) in
  1%nat <> 0%nat /\
  read (snd init) 1%nat = read heap_two 1%nat /\
  run_calls GatedSAE.forward GatedSAE.loss_forward (fst init)
    [Forward X_three; LossForward X_three 5] (snd init) = snd init.
Proof.
  destruct fixed_D_frame as [_ [_ [_ H]]].
  destruct (H heap_two 0%nat (mkT 1 [[1]]) (mkT 1 [[1]])
              [Forward X_three; LossForward X_three 5]) as [_ [_ [Hother Hrun]]].
  assert (Hne : 1%nat <> 0%nat) by discriminate.
  split; [exact Hne|]. split; [apply Hother; exact Hne | exact Hrun].
Defined.

(** * Further properties of the models *)

(** ** Shapes through the tensor operations *)

Lemma bdim_one_r n : bdim n 1 = Some n.
Proof. destruct n as [|[|n]]; reflexivity. Qed.

Lemma bop_nrows f a b c : bop f a b = Some c -> bdim (nrows a) (nrows b) = Some (nrows c).
Proof.
  unfold bop. intros H. inv_bind H. inv_bind H. injection H as <-.
  unfold nrows at 3. simpl. rewrite map2_length, !expand_length, Nat.min_id.
  exact E0.
Qed.

(** A tensor against a 1-D parameter: the operation returns exactly when the
    column counts can be broadcast. *)
Lemma bop_vec_some f a v c :
  bdim (ncols a) (length v) = Some c ->
  exists t, bop f a (of_vec v) = Some t /\ ncols t = c /\ nrows t = nrows a.
Proof.
  intros Hc.
  destruct (bop f a (of_vec v)) as [t|] eqn:E.
  - exists t. split; [reflexivity|].
    pose proof (bop_ncols _ _ _ _ E) as H1. pose proof (bop_nrows _ _ _ _ E) as H2.
    simpl in H1. unfold nrows at 2 in H2. simpl in H2. rewrite bdim_one_r in H2.
    split; congruence.
  - unfold bop in E. simpl in E. rewrite Hc in E. simpl in E.
    unfold nrows at 2 in E. simpl in E. rewrite bdim_one_r in E. discriminate.
Qed.

Lemma bop_vec_returns f a v :
  ncols a = length v ->
  exists t, bop f a (of_vec v) = Some t /\ ncols t = ncols a /\ nrows t = nrows a.
Proof.
  intros Hc. apply bop_vec_some. rewrite <- Hc. apply bdim_same.
Qed.

Lemma matmul_returns a b :
  ncols a = nrows b ->
  exists t, matmul a b = Some t /\ ncols t = ncols b /\ nrows t = nrows a.
Proof.
  intros H. unfold matmul. apply Nat.eqb_eq in H. rewrite H.
  eexists. split; [reflexivity|]. split; [reflexivity|].
  unfold nrows. simpl. apply length_map.
Qed.

Lemma matmul_some a b t : matmul a b = Some t -> ncols a = nrows b.
Proof.
  unfold matmul. destruct (ncols a =? nrows b)%nat eqn:E; [|discriminate].
  intros _. now apply Nat.eqb_eq.
Qed.

Lemma linear_nobias_returns w x :
  ncols x = ncols w ->
  exists y, linear_nobias w x = Some y /\ ncols y = nrows w /\ nrows y = nrows x.
Proof.
  intros H. unfold linear_nobias. apply Nat.eqb_eq in H. rewrite H.
  eexists. split; [reflexivity|]. split; [reflexivity|].
  unfold nrows. simpl. apply length_map.
Qed.

Lemma linear_nobias_some w x y : linear_nobias w x = Some y -> ncols x = ncols w.
Proof.
  unfold linear_nobias. destruct (ncols x =? ncols w)%nat eqn:E; [|discriminate].
  intros _. now apply Nat.eqb_eq.
Qed.

Lemma normalize_in_place_shape h l :
  ncols (read (normalize_in_place h l) l) = ncols (read h l) /\
  nrows (read (normalize_in_place h l) l) = nrows (read h l).
Proof.
  unfold normalize_in_place. rewrite read_write. split; [reflexivity|].
  unfold nrows, normalize_rows. simpl. apply length_map.
Qed.

Lemma optional_normalize_shape (b : bool) h l :
  ncols (read (if b then normalize_in_place h l else h) l) = ncols (read h l) /\
  nrows (read (if b then normalize_in_place h l else h) l) = nrows (read h l).
Proof.
  destruct b; [apply normalize_in_place_shape | auto].
Qed.

Lemma tmap_wf f t : wf t -> wf (tmap f t).
Proof.
  unfold wf, tmap. simpl. intros H. apply Forall_forall. intros r Hin.
  apply in_map_iff in Hin. destruct Hin as [u [<- Hu]]. rewrite length_map.
  rewrite Forall_forall in H. now apply H.
Qed.

Lemma tmap_nrows f t : nrows (tmap f t) = nrows t.
Proof. unfold nrows, tmap. simpl. apply length_map. Qed.

(** The column counts a 1-D parameter of length [m] accepts so that the
    result has [m] columns. *)
Lemma bdim_to_width a m c :
  bdim a m = Some c -> (c = m <-> (a = m \/ a = 1%nat)).
Proof.
  unfold bdim. destruct (a =? m)%nat eqn:E1.
  - apply Nat.eqb_eq in E1. intros [= <-]. intuition.
  - apply Nat.eqb_neq in E1. destruct (a =? 1)%nat eqn:E2.
    + apply Nat.eqb_eq in E2. intros [= <-]. intuition.
    + apply Nat.eqb_neq in E2. destruct (m =? 1)%nat eqn:E3; [|discriminate].
      intros [= <-]. intuition.
Qed.

Lemma bdim_width_some a m : a = m \/ a = 1%nat -> bdim a m = Some m.
Proof.
  intros [->| ->]; [apply bdim_same | apply bdim_one].
Qed.

(** ** Which inputs [forward] accepts *)

(** X1.  For a [SparseAutoEncoder] with parameters of the constructor's
    shapes, [forward] returns exactly on inputs with [M] columns: the linear
    layer does not broadcast. *)
Theorem SparseAutoEncoder_forward_accepts (self : SparseAutoEncoder.t) h X N M :
  SparseAutoEncoder_shaped self h N M ->
  (snd (SparseAutoEncoder.forward self h X) <> None <-> ncols X = M).
Proof.
  intros [HWc [HWr [Hb HD]]]. unfold SparseAutoEncoder.forward. cbn [snd].
  destruct (optional_normalize_shape (SparseAutoEncoder.learn_D self) h
              (SparseAutoEncoder.D_ self)) as [_ Hr].
  unfold SparseAutoEncoder.encoder, linear. split.
  - intros H.
    destruct (linear_nobias (SparseAutoEncoder.encoder_weight self) X) as [y|] eqn:E.
    + apply linear_nobias_some in E. congruence.
    + exfalso. apply H. reflexivity.
  - intros HX.
    destruct (linear_nobias_returns (SparseAutoEncoder.encoder_weight self) X)
      as [y [Hy [Hyc Hyr]]]; [congruence|].
    rewrite Hy, obind_ret.
    destruct (bop_vec_returns Rplus y (SparseAutoEncoder.encoder_bias self))
      as [z [Hz [Hzc Hzr]]]; [congruence|].
    rewrite Hz, !obind_ret.
    match goal with
    | |- context [matmul ?a ?b] => destruct (matmul_returns a b) as [t [Ht _]]
    end.
    { change (ncols (tmap (if SparseAutoEncoder.relu_ self then relu else exp) z))
        with (ncols z). congruence. }
    rewrite Ht, obind_ret. discriminate.
Qed.

Lemma SparseAutoEncoder_forward_accepts_witness :
  SparseAutoEncoder_shaped (autoencoder_one false) heap_two 1 1 /\
  snd (SparseAutoEncoder.forward (autoencoder_one false) heap_two X_three) <> None /\
  snd (SparseAutoEncoder.forward (autoencoder_one false) heap_two X_wide) = None.
Proof.
  assert (Hs : SparseAutoEncoder_shaped (autoencoder_one false) heap_two 1 1)
    by (repeat split).
  split; [exact Hs|]. split.
  - apply (SparseAutoEncoder_forward_accepts _ heap_two X_three 1 1 Hs). reflexivity.
  - destruct (snd (SparseAutoEncoder.forward (autoencoder_one false) heap_two X_wide))
      as [r|] eqn:E; [|reflexivity].
    assert (H : ncols X_wide = 1%nat).
    { apply (SparseAutoEncoder_forward_accepts _ heap_two X_wide 1 1 Hs).
      rewrite E. discriminate. }
    discriminate H.
Defined.

(** X2.  For a [TopKSAE] with parameters of the constructor's shapes and
    [0 <= k <= N], [forward] returns exactly on inputs with [M] columns or
    with a single column: [X - pre_bias] broadcasts a single column to [M]
    columns before the encoder sees it. *)
Theorem TopKSAE_forward_accepts (self : TopKSAE.t) h X N M :
  TopKSAE_shaped self h N M ->
  (0 <= TopKSAE.k self <= Z.of_nat N)%Z ->
  (snd (TopKSAE.forward self h X) <> None <-> (ncols X = M \/ ncols X = 1%nat)).
Proof.
  intros [Hp [HWc [HWr [Hb [HDr HDc]]]]] Hk. unfold TopKSAE.forward. cbn [snd].
  destruct (optional_normalize_shape (TopKSAE.learn_D self) h (TopKSAE.D_ self))
    as [Hc Hr].
  unfold TopKSAE.pre_act. split.
  - intros H.
    destruct (bop Rminus X (of_vec (TopKSAE.pre_bias self))) as [c|] eqn:Ec;
      [|exfalso; apply H; reflexivity].
    rewrite obind_ret in H.
    destruct (linear_nobias (TopKSAE.encoder_weight self) c) as [y|] eqn:Ey;
      [|exfalso; apply H; reflexivity].
    apply linear_nobias_some in Ey. apply bop_ncols in Ec. simpl in Ec.
    rewrite Hp in Ec. apply (bdim_to_width _ _ _ Ec). congruence.
  - intros HX. apply bdim_width_some in HX.
    destruct (bop_vec_some Rminus X (TopKSAE.pre_bias self) M)
      as [c [Hcen [Hcc Hcr]]]; [now rewrite Hp|].
    rewrite Hcen, obind_ret.
    destruct (linear_nobias_returns (TopKSAE.encoder_weight self) c)
      as [y [Hy [Hyc Hyr]]]; [congruence|].
    rewrite Hy, obind_ret.
    destruct (bop_vec_returns Rplus y (TopKSAE.latent_bias self))
      as [P [HP [HPc HPr]]]; [congruence|].
    rewrite HP, obind_ret.
    destruct (TopK_forward_rows (TopKSAE.activation self) P)
      as [topk [S [_ [HS [HSc [HSr _]]]]]].
    { eapply bop_wf; eauto. }
    { unfold TopKSAE.k in Hk. rewrite HPc, Hyc, HWr. exact Hk. }
    rewrite HS, obind_ret.
    match goal with
    | |- context [matmul ?a ?b] => destruct (matmul_returns a b) as [t [Ht [Htc Htr]]]
    end.
    { congruence. }
    rewrite Ht, obind_ret.
    destruct (bop_vec_returns Rplus t (TopKSAE.pre_bias self)) as [X_ [HX_ _]];
      [congruence|].
    rewrite HX_, obind_ret. discriminate.
Qed.

Lemma TopKSAE_forward_accepts_witness :
  TopKSAE_shaped (topksae_wide false) heap_wide 1 2 /\
  (0 <= TopKSAE.k (topksae_wide false) <= Z.of_nat 1)%Z /\
  snd (TopKSAE.forward (topksae_wide false) heap_wide X_wide) <> None /\
  snd (TopKSAE.forward (topksae_wide false) heap_wide X_column) <> None /\
  snd (TopKSAE.forward (topksae_wide false) heap_wide X_three_columns) = None.
Proof.
  assert (Hs : TopKSAE_shaped (topksae_wide false) heap_wide 1 2) by (repeat split).
  assert (Hk : (0 <= TopKSAE.k (topksae_wide false) <= Z.of_nat 1)%Z)
    by (unfold TopKSAE.k; simpl; lia).
  split; [exact Hs|]. split; [exact Hk|]. split; [|split].
  - apply (TopKSAE_forward_accepts _ heap_wide X_wide 1 2 Hs Hk). left. reflexivity.
  - apply (TopKSAE_forward_accepts _ heap_wide X_column 1 2 Hs Hk). right. reflexivity.
  - destruct (snd (TopKSAE.forward (topksae_wide false) heap_wide X_three_columns))
      as [r|] eqn:E; [|reflexivity].
    assert (H : ncols X_three_columns = 2%nat \/ ncols X_three_columns = 1%nat).
    { apply (TopKSAE_forward_accepts _ heap_wide X_three_columns 1 2 Hs Hk).
      rewrite E. discriminate. }
    destruct H as [H|H]; discriminate H.
Defined.

(** X3.  For a [GatedSAE] with parameters of the constructor's shapes,
    [forward] returns exactly on inputs with [M] columns or with a single
    column: [X - b_dec] broadcasts a single column to [M] columns. *)
Theorem GatedSAE_forward_accepts (self : GatedSAE.t) h X N M :
  GatedSAE_shaped self h N M ->
  (snd (GatedSAE.forward self h X) <> None <-> (ncols X = M \/ ncols X = 1%nat)).
Proof.
  intros [Hbd [HWr [HWc [Hrm [Hbm [Hbg [HDr HDc]]]]]]].
  unfold GatedSAE.forward. cbn [snd].
  destruct (optional_normalize_shape (GatedSAE.learn_D self) h (GatedSAE.D_ self))
    as [Hc Hr].
  split.
  - intros H.
    destruct (bop Rminus X (of_vec (GatedSAE.b_dec self))) as [c|] eqn:Ec;
      [|exfalso; apply H; reflexivity].
    rewrite obind_ret in H.
    destruct (matmul c (GatedSAE.W_gate self)) as [y|] eqn:Ey;
      [|exfalso; apply H; reflexivity].
    apply matmul_some in Ey. apply bop_ncols in Ec. simpl in Ec.
    rewrite Hbd in Ec. apply (bdim_to_width _ _ _ Ec). congruence.
  - intros HX. apply bdim_width_some in HX.
    destruct (bop_vec_some Rminus X (GatedSAE.b_dec self) M)
      as [c [Hcen [Hcc Hcr]]]; [now rewrite Hbd|].
    rewrite Hcen, obind_ret.
    destruct (matmul_returns c (GatedSAE.W_gate self)) as [pre [Hpre [Hprec Hprer]]];
      [congruence|].
    rewrite Hpre, obind_ret. unfold GatedSAE.code.
    destruct (bop_vec_returns Rmult pre (map exp (GatedSAE.r_mag self)))
      as [sc [Hsc [Hscc Hscr]]]; [rewrite length_map; congruence|].
    rewrite Hsc, obind_ret.
    destruct (bop_vec_returns Rplus sc (GatedSAE.b_mag self))
      as [pm [Hpm [Hpmc Hpmr]]]; [congruence|].
    rewrite Hpm, obind_ret.
    destruct (bop_vec_returns Rplus pre (GatedSAE.b_gate self))
      as [pg [Hpg [Hpgc Hpgr]]]; [congruence|].
    rewrite Hpg, obind_ret.
    rewrite (bop_rows_same Rmult (tmap relu pm) (GatedSAE.gate pg)).
    2:{ apply tmap_wf. eapply bop_wf; eauto. }
    2:{ apply tmap_wf. eapply bop_wf; eauto. }
    2:{ change (ncols pm = ncols pg). congruence. }
    2:{ unfold GatedSAE.gate. rewrite !tmap_nrows. congruence. }
    rewrite !obind_ret.
    match goal with
    | |- context [matmul ?a ?b] => destruct (matmul_returns a b) as [t [Ht [Htc Htr]]]
    end.
    { change (ncols pm = nrows (read (if GatedSAE.learn_D self
                                       then normalize_in_place h (GatedSAE.D_ self)
                                       else h) (GatedSAE.D_ self))).
      congruence. }
    rewrite Ht, obind_ret.
    destruct (bop_vec_returns Rplus t (GatedSAE.b_dec self)) as [X_ [HX_ _]];
      [congruence|].
    rewrite HX_, obind_ret. discriminate.
Qed.

Lemma GatedSAE_forward_accepts_witness :
  GatedSAE_shaped (gated_wide false) heap_wide 1 2 /\
  snd (GatedSAE.forward (gated_wide false) heap_wide X_wide) <> None /\
  snd (GatedSAE.forward (gated_wide false) heap_wide X_column) <> None /\
  snd (GatedSAE.forward (gated_wide false) heap_wide X_three_columns) = None.
Proof.
  assert (Hs : GatedSAE_shaped (gated_wide false) heap_wide 1 2) by (repeat split).
  split; [exact Hs|]. split; [|split].
  - apply (GatedSAE_forward_accepts _ heap_wide X_wide 1 2 Hs). left. reflexivity.
  - apply (GatedSAE_forward_accepts _ heap_wide X_column 1 2 Hs). right. reflexivity.
  - destruct (snd (GatedSAE.forward (gated_wide false) heap_wide X_three_columns))
      as [r|] eqn:E; [|reflexivity].
    assert (H : ncols X_three_columns = 2%nat \/ ncols X_three_columns = 1%nat).
    { apply (GatedSAE_forward_accepts _ heap_wide X_three_columns 1 2 Hs).
      rewrite E. discriminate. }
    destruct H as [H|H]; discriminate H.
Defined.

(** ** Sparsity of the top-k activation *)

Lemma count_nonzero_zeros n : count_nonzero (repeat 0 n) = 0%nat.
Proof.
  unfold count_nonzero. induction n as [|n IH]; simpl; [reflexivity|].
  destruct (Req_dec_T 0 0) as [_|H]; [exact IH | contradiction].
Qed.

Lemma count_nonzero_upd i v l : (count_nonzero (upd i v l) <= S (count_nonzero l))%nat.
Proof.
  unfold count_nonzero. revert i.
  induction l as [|a l IH]; intros [|i]; simpl; try lia.
  - destruct (Req_dec_T v 0), (Req_dec_T a 0); simpl; lia.
  - specialize (IH i). destruct (Req_dec_T a 0); simpl; lia.
Qed.

(** Each write of [scatter_] adds at most one non-zero entry. *)
Lemma scatter_row_count index :
  forall src result r,
    scatter_row result index src = Some r ->
    (count_nonzero r <= count_nonzero result + length index)%nat.
Proof.
  induction index as [|i index IH]; intros src result r H; simpl in *.
  - injection H as <-. lia.
  - destruct src as [|v src]; [discriminate|].
    destruct (i <? length result)%nat; [|discriminate].
    apply IH in H. pose proof (count_nonzero_upd i v result). lia.
Qed.

Lemma scatter_rows_count (k : nat) index :
  forall result src rs,
    scatter_rows result index src = Some rs ->
    Forall (fun r => count_nonzero r = 0%nat) result ->
    Forall (fun ix => (length ix <= k)%nat) index ->
    Forall (fun r => (count_nonzero r <= k)%nat) rs.
Proof.
  induction index as [|ix index IH]; intros result src rs H Hz Hk.
  - assert (rs = result) as -> by (destruct result; simpl in H; congruence).
    eapply Forall_impl; [|exact Hz]. simpl. intros r ->. lia.
  - destruct result as [|r0 result]; [discriminate|].
    destruct src as [|s src]; [discriminate|]. simpl in H.
    inv_bind H. inv_bind H. injection H as <-.
    apply Forall_cons_iff in Hz. destruct Hz as [Hz0 Hz].
    apply Forall_cons_iff in Hk. destruct Hk as [Hk0 Hk].
    constructor.
    + apply scatter_row_count in E. lia.
    + eapply IH; eauto.
Qed.

Lemma TopK_forward_sparse (self : TopK.t) (x r : tensor) :
  TopK.forward self x = Some r ->
  Forall (fun row => (count_nonzero row <= Z.to_nat (TopK.k self))%nat) (rows r).
Proof.
  unfold TopK.forward, torch_topk. intros H.
  destruct ((0 <=? TopK.k self)%Z && (TopK.k self <=? Z.of_nat (ncols x))%Z)%bool;
    [|discriminate].
  rewrite obind_ret in H. unfold scatter_ in H. inv_bind H. injection H as <-.
  simpl in *. eapply scatter_rows_count; [exact E | |].
  - apply Forall_forall. intros row Hin. apply in_map_iff in Hin.
    destruct Hin as [u [<- _]]. apply count_nonzero_zeros.
  - apply Forall_forall. intros ix Hin. apply in_map_iff in Hin.
    destruct Hin as [top [<- Hin]]. apply in_map_iff in Hin.
    destruct Hin as [u [<- _]]. rewrite length_map. unfold topk_row.
    rewrite length_firstn. lia.
Qed.

(** X4.  Whenever [TopK.forward] returns, each row of its result has at most
    [k] non-zero entries, for any post-activation; so has each row of the
    code [S_] that [TopKSAE.forward] returns. *)
Theorem TopK_at_most_k_nonzero :
  (forall (self : TopK.t) (x r : tensor),
      TopK.forward self x = Some r ->
      Forall (fun row => (count_nonzero row <= Z.to_nat (TopK.k self))%nat) (rows r)) /\
  (forall (self : TopKSAE.t) h X S_ X_,
      snd (TopKSAE.forward self h X) = Some (S_, X_) ->
      Forall (fun row => (count_nonzero row <= Z.to_nat (TopKSAE.k self))%nat) (rows S_)).
Proof.
  split; [exact TopK_forward_sparse|].
  intros self h X S_ X_ H. unfold TopKSAE.forward in H. cbn [snd] in H.
  do 4 inv_bind H. injection H as <- _.
  unfold TopKSAE.k. eapply TopK_forward_sparse; eauto.
Qed.

Lemma TopK_at_most_k_nonzero_witness :
  Forall (fun row => (count_nonzero row <= 2)%nat) (rows (mkT 3 [[0; 3; 2]])) /\
  exists S_ X_,
    snd (TopKSAE.forward (topksae_wide false) heap_wide X_wide) = Some (S_, X_) /\
    Forall (fun row => (count_nonzero row <= 1)%nat) (rows S_).
Proof.
  destruct TopK_at_most_k_nonzero as [H1 H2]. split.
  - apply (H1 top2 x_132). apply TopK_forward_132.
  - do 2 eexists. split; [reflexivity|].
    eapply (H2 (topksae_wide false) heap_wide X_wide). reflexivity.
Defined.

(** ** The two extreme values of [k] *)

Lemma scatter_rows_nothing (xs : list (list R)) (f : R -> R) :
  scatter_rows (map (fun r => repeat 0 (length r)) xs)
               (map (map fst) (map (topk_row 0) xs))
               (map (map f) (map (map snd) (map (topk_row 0) xs)))
  = Some (map (fun r => repeat 0 (length r)) xs).
Proof.
  induction xs as [|x xs IH]; simpl; [reflexivity|].
  rewrite IH. reflexivity.
Qed.

Lemma all_positions_selected (sel : list nat) (n : nat) :
  NoDup sel -> length sel = n -> (forall j, In j sel -> (j < n)%nat) ->
  forall j, (j < n)%nat -> In j sel.
Proof.
  intros Hnd Hlen Hin j Hj.
  apply (NoDup_length_incl (l := sel) (l' := seq 0 n)); auto.
  - rewrite length_seq. lia.
  - intros i Hi. apply in_seq. specialize (Hin i Hi). lia.
  - apply in_seq. lia.
Qed.

Lemma tensor_ext (a b : tensor) :
  ncols a = ncols b -> nrows a = nrows b ->
  (forall i, (i < nrows a)%nat ->
     length (nth i (rows a) []) = length (nth i (rows b) []) /\
     forall j, (j < length (nth i (rows a) []))%nat -> get a i j = get b i j) ->
  a = b.
Proof.
  destruct a as [ca ra], b as [cb rb]. unfold nrows, get. simpl.
  intros -> Hr H. f_equal.
  apply (nth_ext _ _ [] [] Hr). intros i Hi.
  destruct (H i Hi) as [Hl Hj].
  apply (nth_ext _ _ 0 0 Hl). exact Hj.
Qed.

(** X5.  With [k = 0] [TopK.forward] returns the zero tensor of the shape of
    its input; with [k] the size of the last dimension it zeroes nothing and
    returns [postact_fn] of every entry. *)
Theorem TopK_extreme_k (self : TopK.t) (x : tensor) :
  (TopK.k self = 0%Z -> TopK.forward self x = Some (zeros_like x)) /\
  (wf x -> TopK.k self = Z.of_nat (ncols x) ->
   TopK.forward self x = Some (tmap (TopK.postact_fn self) x)).
Proof.
  split.
  - intros Hk. unfold TopK.forward, torch_topk. rewrite Hk.
    replace ((0 <=? 0)%Z && (0 <=? Z.of_nat (ncols x))%Z)%bool
      with true by (symmetry; apply andb_true_iff; split; apply Z.leb_le; lia).
    rewrite obind_ret. unfold scatter_, zeros_like, tmap.
    cbn [rows ncols values indices]. change (Z.to_nat 0) with 0%nat.
    rewrite scatter_rows_nothing. reflexivity.
  - intros Hwf Hk.
    destruct (TopK_forward_rows self x Hwf) as [topk [r [_ [Hr [Hc [Hn [Hwr Hrows]]]]]]];
      [lia|].
    rewrite Hr. f_equal. apply tensor_ext.
    + exact Hc.
    + now rewrite tmap_nrows.
    + intros i Hi. rewrite Hn in Hi.
      assert (Hlx : length (nth i (rows x) []) = ncols x) by now apply wf_nth.
      assert (Hlr : length (nth i (rows r) []) = ncols x).
      { rewrite <- Hc. apply wf_nth; auto. lia. }
      assert (Hlt : length (nth i (rows (tmap (TopK.postact_fn self) x)) []) = ncols x).
      { apply (wf_nth (tmap (TopK.postact_fn self) x)); [now apply tmap_wf|].
        now rewrite tmap_nrows. }
      split; [congruence|]. intros j Hj. rewrite Hlr in Hj.
      destruct (Hrows i Hi) as [Hnd [Hlen [Hin _]]].
      rewrite get_tmap by (auto; lia).
      apply Hin. apply (all_positions_selected _ (ncols x)); auto.
      * rewrite Hlen, Hk. apply Nat2Z.id.
      * intros j' Hj'. now apply Hin.
Qed.

Lemma TopK_extreme_k_witness :
  TopK.forward (TopK.mk 0 default_postact) x_132 = Some (mkT 3 [[0; 0; 0]]) /\
  wf x_132 /\
  TopK.forward (TopK.mk 3 default_postact) x_132 = Some (tmap default_postact x_132).
Proof.
  assert (Hwf : wf x_132) by (repeat constructor).
  split; [|split; [exact Hwf|]].
  - apply (proj1 (TopK_extreme_k (TopK.mk 0 default_postact) x_132)). reflexivity.
  - apply (proj2 (TopK_extreme_k (TopK.mk 3 default_postact) x_132) Hwf). reflexivity.
Defined.

(** ** Applying the top-k activation twice *)

Lemma relu_fixed y : 0 <= y -> relu y = y.
Proof. unfold relu. intros H. destruct (Rlt_dec 0 y); lra. Qed.

(** Selecting again among the values already selected changes nothing,
    whichever positions the second selection takes among equal values. *)
Lemma selection_idempotent (n k : nat) (xv rv r2v : nat -> R) (sel sel2 : list nat) :
  NoDup sel -> length sel = k ->
  (forall j, In j sel -> rv j = relu (xv j)) ->
  (forall j, ~ In j sel -> rv j = 0) ->
  NoDup sel2 -> length sel2 = k ->
  (forall j, In j sel2 -> r2v j = relu (rv j)) ->
  (forall j, ~ In j sel2 -> r2v j = 0) ->
  (forall j j', In j sel2 -> (j' < n)%nat -> ~ In j' sel2 -> rv j' <= rv j) ->
  forall j, (j < n)%nat -> r2v j = rv j.
Proof.
  intros Hnd Hlen Hin Hout Hnd2 Hlen2 Hin2 Hout2 Hmax2 j Hj.
  assert (Hpos : forall i, 0 <= rv i).
  { intros i. destruct (in_dec Nat.eq_dec i sel) as [Hi|Hi].
    - rewrite (Hin i Hi). apply relu_nonneg.
    - rewrite (Hout i Hi). lra. }
  assert (Hnz : forall i, rv i <> 0 -> In i sel).
  { intros i Hi. destruct (in_dec Nat.eq_dec i sel) as [Hs|Hs]; [exact Hs|].
    exfalso. apply Hi. now apply Hout. }
  destruct (in_dec Nat.eq_dec j sel2) as [Hs2|Hs2].
  - rewrite (Hin2 j Hs2). apply relu_fixed. apply Hpos.
  - rewrite (Hout2 j Hs2). destruct (Req_dec_T (rv j) 0) as [Hz|Hz]; [now rewrite Hz|].
    exfalso.
    assert (Hincl : incl (j :: sel2) sel).
    { intros i [<-|Hi]; [now apply Hnz|]. apply Hnz.
      pose proof (Hmax2 i j Hi Hj Hs2). pose proof (Hpos j). lra. }
    assert (Hnd' : NoDup (j :: sel2)) by now constructor.
    pose proof (NoDup_incl_length Hnd' Hincl) as Hle. simpl in Hle. lia.
Qed.

(** X6.  With the default ReLU post-activation [TopK.forward] is idempotent:
    applied to its own result it returns that result unchanged. *)
Theorem TopK_forward_idempotent (self : TopK.t) (x r : tensor) :
  wf x ->
  TopK.postact_fn self = default_postact ->
  TopK.forward self x = Some r ->
  TopK.forward self r = Some r.
Proof.
  intros Hwf Hpost Hr.
  pose proof (TopK_forward_range self x r Hr) as Hk.
  destruct (TopK_forward_rows self x Hwf Hk)
    as [topk [r' [_ [Hr' [Hc [Hn [Hwr Hrows]]]]]]].
  rewrite Hr in Hr'. injection Hr' as <-.
  assert (Hk2 : (0 <= TopK.k self <= Z.of_nat (ncols r))%Z) by (rewrite Hc; exact Hk).
  destruct (TopK_forward_rows self r Hwr Hk2)
    as [topk2 [r2 [_ [Hr2 [Hc2 [Hn2 [Hwr2 Hrows2]]]]]]].
  rewrite Hr2. f_equal. apply tensor_ext; auto.
  intros i Hi. rewrite Hn2 in Hi.
  assert (Hl : length (nth i (rows r) []) = ncols r) by now apply wf_nth.
  assert (Hl2 : length (nth i (rows r2) []) = ncols r).
  { rewrite <- Hc2. apply wf_nth; auto. lia. }
  split; [congruence|]. intros j Hj. rewrite Hl2 in Hj.
  assert (Hi' : (i < nrows x)%nat) by lia.
  destruct (Hrows i Hi') as [Hnd [Hlen [Hin [Hout _]]]].
  destruct (Hrows2 i Hi) as [Hnd2 [Hlen2 [Hin2 [Hout2 Hmax2]]]].
  rewrite Hpost in Hin, Hin2.
  apply (selection_idempotent (ncols r) (Z.to_nat (TopK.k self))
           (get x i) (get r i) (get r2 i)
           (nth i (indices topk) []) (nth i (indices topk2) [])); auto.
  - intros j' Hj'. now apply Hin.
  - intros j' Hj'. now apply Hin2.
Qed.

Lemma TopK_forward_idempotent_witness :
  wf x_132 /\
  TopK.forward top2 x_132 = Some (mkT 3 [[0; 3; 2]]) /\
  TopK.forward top2 (mkT 3 [[0; 3; 2]]) = Some (mkT 3 [[0; 3; 2]]).
Proof.
  assert (Hwf : wf x_132) by (repeat constructor).
  split; [exact Hwf|]. split; [exact TopK_forward_132|].
  apply (TopK_forward_idempotent top2 x_132 _ Hwf eq_refl TopK_forward_132).
Defined.

(** ** Renormalising again *)

Lemma normalize_row_fixed r : row_norm r = 1 -> map (fun x => x / row_norm r) r = r.
Proof.
  intros ->. rewrite <- (map_id r) at 2. apply map_ext. intros x. simpl. field.
Qed.

Lemma normalize_rows_fixed d : unit_rows d -> normalize_rows d = d.
Proof.
  destruct d as [c rs]. unfold unit_rows, normalize_rows. simpl. intros H. f_equal.
  induction H as [|r rs Hr Hrs IH]; simpl; [reflexivity|].
  now rewrite IH, normalize_row_fixed.
Qed.

Lemma normalize_rows_idempotent d :
  Forall nonzero_row (rows d) -> normalize_rows (normalize_rows d) = normalize_rows d.
Proof.
  intros H. apply normalize_rows_fixed. now apply normalize_rows_unit.
Qed.

Lemma normalize_in_place_again h l :
  Forall nonzero_row (rows (read h l)) ->
  forall l', read (normalize_in_place (normalize_in_place h l) l) l'
             = read (normalize_in_place h l) l'.
Proof.
  intros H l'. unfold normalize_in_place at 1.
  destruct (Nat.eq_dec l' l) as [->|Hne].
  - rewrite read_write. unfold normalize_in_place. rewrite read_write.
    now apply normalize_rows_idempotent.
  - now rewrite read_write_other.
Qed.

(** X7.  Calling [forward] again on the same input, with no update of the
    parameters in between, returns the same result and leaves every stored
    tensor as the first call left it, for each of the four models and
    either value of [learn_D] (no row of [D_] being the zero vector): the
    in-place renormalisation is idempotent. *)
Theorem forward_twice :
  (forall (self : SparseCoding.t) h X,
      Forall nonzero_row (rows (read h (SparseCoding.D_ self))) ->
      let h1 := fst (SparseCoding.forward self h X) in
      snd (SparseCoding.forward self h1 X) = snd (SparseCoding.forward self h X) /\
      forall l, read (fst (SparseCoding.forward self h1 X)) l = read h1 l) /\
  (forall (self : SparseAutoEncoder.t) h X,
      Forall nonzero_row (rows (read h (SparseAutoEncoder.D_ self))) ->
      let h1 := fst (SparseAutoEncoder.forward self h X) in
      snd (SparseAutoEncoder.forward self h1 X)
        = snd (SparseAutoEncoder.forward self h X) /\
      forall l, read (fst (SparseAutoEncoder.forward self h1 X)) l = read h1 l) /\
  (forall (self : GatedSAE.t) h X,
      Forall nonzero_row (rows (read h (GatedSAE.D_ self))) ->
      let h1 := fst (GatedSAE.forward self h X) in
      snd (GatedSAE.forward self h1 X) = snd (GatedSAE.forward self h X) /\
      forall l, read (fst (GatedSAE.forward self h1 X)) l = read h1 l) /\
  (forall (self : TopKSAE.t) h X,
      Forall nonzero_row (rows (read h (TopKSAE.D_ self))) ->
      let h1 := fst (TopKSAE.forward self h X) in
      snd (TopKSAE.forward self h1 X) = snd (TopKSAE.forward self h X) /\
      forall l, read (fst (TopKSAE.forward self h1 X)) l = read h1 l).
Proof.
  split; [|split; [|split]]; intros self h X Hnz; cbv zeta.
  - unfold SparseCoding.forward. destruct (SparseCoding.learn_D self); cbn [fst snd].
    + split; [|now apply normalize_in_place_again].
      now rewrite (normalize_in_place_again h _ Hnz).
    + split; reflexivity.
  - unfold SparseAutoEncoder.forward.
    destruct (SparseAutoEncoder.learn_D self); cbn [fst snd].
    + split; [|now apply normalize_in_place_again].
      now rewrite (normalize_in_place_again h _ Hnz).
    + split; reflexivity.
  - unfold GatedSAE.forward. destruct (GatedSAE.learn_D self); cbn [fst snd].
    + split; [|now apply normalize_in_place_again].
      now rewrite (normalize_in_place_again h _ Hnz).
    + split; reflexivity.
  - unfold TopKSAE.forward. destruct (TopKSAE.learn_D self); cbn [fst snd].
    + split; [|now apply normalize_in_place_again].
      now rewrite (normalize_in_place_again h _ Hnz).
    + split; reflexivity.
Qed.

Lemma forward_twice_witness :
  Forall nonzero_row (rows (read heap_two 0%nat)) /\
  snd (TopKSAE.forward (topksae_one true)
         (fst (TopKSAE.forward (topksae_one true) heap_two X_three)) X_three)
    = snd (TopKSAE.forward (topksae_one true) heap_two X_three) /\
  snd (GatedSAE.forward (gated_one true)
         (fst (GatedSAE.forward (gated_one true) heap_two X_three)) X_three)
    = snd (GatedSAE.forward (gated_one true) heap_two X_three).
Proof.
  destruct forward_twice as [_ [_ [H3 H4]]].
  split; [exact nonzero_row_two|]. split.
  - apply (H4 (topksae_one true) heap_two X_three nonzero_row_two).
  - apply (H3 (gated_one true) heap_two X_three nonzero_row_two).
Defined.

(** ** What the calls write *)

Lemma normalize_in_place_other h l l' :
  l' <> l -> read (normalize_in_place h l) l' = read h l'.
Proof. intros H. unfold normalize_in_place. now apply read_write_other. Qed.

Lemma optional_normalize_other (b : bool) h l l' :
  l' <> l -> read (if b then normalize_in_place h l else h) l' = read h l'.
Proof. intros H. destruct b; [now apply normalize_in_place_other | reflexivity]. Qed.

Lemma optional_normalize_unit (b : bool) h l l' :
  unit_rows (read h l) -> read (if b then normalize_in_place h l else h) l' = read h l'.
Proof.
  intros H. destruct b; [|reflexivity].
  destruct (Nat.eq_dec l' l) as [->|Hne].
  - unfold normalize_in_place. rewrite read_write. now apply normalize_rows_fixed.
  - now apply normalize_in_place_other.
Qed.

Lemma SparseCoding_store self h X X' w :
  fst (SparseCoding.forward self h X)
    = (if SparseCoding.learn_D self then normalize_in_place h (SparseCoding.D_ self) else h) /\
  fst (SparseCoding.loss_forward self h X' w)
    = (if SparseCoding.learn_D self then normalize_in_place h (SparseCoding.D_ self) else h).
Proof. split; reflexivity. Qed.

Lemma SparseAutoEncoder_store self h X w :
  fst (SparseAutoEncoder.forward self h X)
    = (if SparseAutoEncoder.learn_D self
       then normalize_in_place h (SparseAutoEncoder.D_ self) else h) /\
  fst (SparseAutoEncoder.loss_forward self h X w)
    = (if SparseAutoEncoder.learn_D self
       then normalize_in_place h (SparseAutoEncoder.D_ self) else h).
Proof. split; reflexivity. Qed.

Lemma GatedSAE_store self h X w :
  fst (GatedSAE.forward self h X)
    = (if GatedSAE.learn_D self then normalize_in_place h (GatedSAE.D_ self) else h) /\
  fst (GatedSAE.loss_forward self h X w)
    = (if GatedSAE.learn_D self then normalize_in_place h (GatedSAE.D_ self) else h).
Proof. split; reflexivity. Qed.

Lemma TopKSAE_store self h X w :
  fst (TopKSAE.forward self h X)
    = (if TopKSAE.learn_D self then normalize_in_place h (TopKSAE.D_ self) else h) /\
  fst (TopKSAE.loss_forward self h X w)
    = (if TopKSAE.learn_D self then normalize_in_place h (TopKSAE.D_ self) else h).
Proof. split; reflexivity. Qed.

(** A sequence of calls reads back what was stored, at every address the
    calls leave alone. *)
Lemma run_calls_reads {M A B : Type}
  (fwd : M -> heap -> tensor -> heap * A)
  (loss : M -> heap -> tensor -> R -> heap * B) (self : M)
  (P : heap -> Prop) (Q : loc -> Prop) :
  (forall h X, P h -> P (fst (fwd self h X)) /\
               forall l, Q l -> read (fst (fwd self h X)) l = read h l) ->
  (forall h X w, P h -> P (fst (loss self h X w)) /\
                 forall l, Q l -> read (fst (loss self h X w)) l = read h l) ->
  forall cs h, P h -> forall l, Q l -> read (run_calls fwd loss self cs h) l = read h l.
Proof.
  intros Hf Hl. unfold run_calls.
  induction cs as [|c cs IH]; intros h HP l HQ; simpl; [reflexivity|].
  destruct c as [X|X w].
  - destruct (Hf h X HP) as [HP' Hr]. rewrite IH by auto. now apply Hr.
  - destruct (Hl h X w HP) as [HP' Hr]. rewrite IH by auto. now apply Hr.
Qed.

Lemma alloc_fresh h t :
  read (snd (alloc h t)) (fst (alloc h t)) = t /\
  forall l, (l < next h)%nat -> l <> fst (alloc h t) /\ read (snd (alloc h t)) l = read h l.
Proof.
  unfold alloc, read. simpl. rewrite Nat.eqb_refl. split; [reflexivity|].
  intros l Hl. split; [lia|].
  destruct (l =? next h)%nat eqn:E; [apply Nat.eqb_eq in E; lia | reflexivity].
Qed.

Lemma SparseCoding_writes_only_D self h l :
  l <> SparseCoding.D_ self ->
  (forall X, read (fst (SparseCoding_forward_on self h X)) l = read h l) /\
  (forall X w, read (fst (SparseCoding.loss_forward self h X w)) l = read h l).
Proof.
  intros Hl. split; intros; unfold SparseCoding_forward_on;
    rewrite ?(proj1 (SparseCoding_store self h _ X 0)),
            ?(proj2 (SparseCoding_store self h None X w));
    now apply optional_normalize_other.
Qed.

Lemma SparseAutoEncoder_writes_only_D self h l :
  l <> SparseAutoEncoder.D_ self ->
  (forall X, read (fst (SparseAutoEncoder.forward self h X)) l = read h l) /\
  (forall X w, read (fst (SparseAutoEncoder.loss_forward self h X w)) l = read h l).
Proof.
  intros Hl. split; intros;
    rewrite ?(proj1 (SparseAutoEncoder_store self h X 0)),
            ?(proj2 (SparseAutoEncoder_store self h X w));
    now apply optional_normalize_other.
Qed.

Lemma GatedSAE_writes_only_D self h l :
  l <> GatedSAE.D_ self ->
  (forall X, read (fst (GatedSAE.forward self h X)) l = read h l) /\
  (forall X w, read (fst (GatedSAE.loss_forward self h X w)) l = read h l).
Proof.
  intros Hl. split; intros;
    rewrite ?(proj1 (GatedSAE_store self h X 0)),
            ?(proj2 (GatedSAE_store self h X w));
    now apply optional_normalize_other.
Qed.

Lemma TopKSAE_writes_only_D self h l :
  l <> TopKSAE.D_ self ->
  (forall X, read (fst (TopKSAE.forward self h X)) l = read h l) /\
  (forall X w, read (fst (TopKSAE.loss_forward self h X w)) l = read h l).
Proof.
  intros Hl. split; intros;
    rewrite ?(proj1 (TopKSAE_store self h X 0)),
            ?(proj2 (TopKSAE_store self h X w));
    now apply optional_normalize_other.
Qed.

(** X8.  With [learn_D = True] the supplied tensor [D] gives only its shape:
    [D_] is a fresh tensor at another address, and neither the constructor
    nor any sequence of [forward] and [loss_forward] calls writes to [D]. *)
Theorem learned_D_leaves_supplied_D :
  (forall h S D randn cs, (D < next h)%nat ->
      let self := fst (SparseCoding.init h S D true randn) in
      let h0 := snd (SparseCoding.init h S D true randn) in
      SparseCoding.D_ self <> D /\
      read (run_calls SparseCoding_forward_on SparseCoding.loss_forward self cs h0) D
        = read h D) /\
  (forall h D relu w b randn cs, (D < next h)%nat ->
      let self := fst (SparseAutoEncoder.init h D true relu w b randn) in
      let h0 := snd (SparseAutoEncoder.init h D true relu w b randn) in
      SparseAutoEncoder.D_ self <> D /\
      read (run_calls SparseAutoEncoder.forward SparseAutoEncoder.loss_forward self cs h0) D
        = read h D) /\
  (forall h D kaiming_D kaiming_W cs, (D < next h)%nat ->
      let self := fst (GatedSAE.init h D true kaiming_D kaiming_W) in
      let h0 := snd (GatedSAE.init h D true kaiming_D kaiming_W) in
      GatedSAE.D_ self <> D /\
      read (run_calls GatedSAE.forward GatedSAE.loss_forward self cs h0) D = read h D) /\
  (forall h D k postact w randn cs, (D < next h)%nat ->
      let self := fst (TopKSAE.init h D true k postact w randn) in
      let h0 := snd (TopKSAE.init h D true k postact w randn) in
      TopKSAE.D_ self <> D /\
      read (run_calls TopKSAE.forward TopKSAE.loss_forward self cs h0) D = read h D).
Proof.
  split; [|split; [|split]].
  - intros h S D randn cs HD.
    destruct (alloc_fresh h randn) as [_ Hfresh]. destruct (Hfresh D HD) as [Hne Hrd].
    unfold SparseCoding.init. unfold alloc in *. cbn [fst snd SparseCoding.D_] in *.
    split; [congruence|]. rewrite <- Hrd.
    apply (run_calls_reads _ _ _ (fun _ => True) (fun l => l <> next h)); auto.
    + intros h' X _. split; [exact I|]. intros l Hl.
      now apply (SparseCoding_writes_only_D _ h' l).
    + intros h' X w _. split; [exact I|]. intros l Hl.
      now apply (SparseCoding_writes_only_D _ h' l).
  - intros h D relu w b randn cs HD.
    destruct (alloc_fresh h randn) as [_ Hfresh]. destruct (Hfresh D HD) as [Hne Hrd].
    unfold SparseAutoEncoder.init. unfold alloc in *.
    cbn [fst snd SparseAutoEncoder.D_] in *.
    split; [congruence|]. rewrite <- Hrd.
    apply (run_calls_reads _ _ _ (fun _ => True) (fun l => l <> next h)); auto.
    + intros h' X _. split; [exact I|]. intros l Hl.
      now apply (SparseAutoEncoder_writes_only_D _ h' l).
    + intros h' X w' _. split; [exact I|]. intros l Hl.
      now apply (SparseAutoEncoder_writes_only_D _ h' l).
  - intros h D kD kW cs HD.
    destruct (alloc_fresh h kD) as [_ Hfresh]. destruct (Hfresh D HD) as [Hne Hrd].
    unfold GatedSAE.init. unfold alloc in *. cbn [fst snd GatedSAE.D_] in *.
    split; [congruence|].
    match goal with
    | |- read (run_calls _ _ _ _ ?h0) _ = _ => transitivity (read h0 D)
    end.
    2:{ rewrite normalize_in_place_other by congruence. exact Hrd. }
    apply (run_calls_reads _ _ _ (fun _ => True) (fun l => l <> next h)); auto.
    + intros h' X _. split; [exact I|]. intros l Hl.
      now apply (GatedSAE_writes_only_D _ h' l).
    + intros h' X w' _. split; [exact I|]. intros l Hl.
      now apply (GatedSAE_writes_only_D _ h' l).
  - intros h D k postact w randn cs HD.
    destruct (alloc_fresh h randn) as [_ Hfresh]. destruct (Hfresh D HD) as [Hne Hrd].
    unfold TopKSAE.init. unfold alloc in *. cbn [fst snd TopKSAE.D_] in *.
    split; [congruence|]. rewrite <- Hrd.
    apply (run_calls_reads _ _ _ (fun _ => True) (fun l => l <> next h)); auto.
    + intros h' X _. split; [exact I|]. intros l Hl.
      now apply (TopKSAE_writes_only_D _ h' l).
    + intros h' X w' _. split; [exact I|]. intros l Hl.
      now apply (TopKSAE_writes_only_D _ h' l).
Qed.

Lemma learned_D_leaves_supplied_D_witness :
  (0 < next heap_two)%nat /\
  read (run_calls GatedSAE.forward GatedSAE.loss_forward
          (fst (GatedSAE.init heap_two 0%nat true (mkT 1 [[1]]) (mkT 1 [[1]])))
          [Forward X_three; LossForward X_three 5]
          (snd (GatedSAE.init heap_two 0%nat true (mkT 1 [[1]]) (mkT 1 [[1]])))) 0%nat
    = mkT 1 [[2]].
Proof.
  destruct learned_D_leaves_supplied_D as [_ [_ [H _]]].
  assert (Hlt : (0 < next heap_two)%nat) by (simpl; lia).
  split; [exact Hlt|].
  apply (H heap_two 0%nat (mkT 1 [[1]]) (mkT 1 [[1]])
           [Forward X_three; LossForward X_three 5] Hlt).
Defined.

(** X9.  A [GatedSAE] built on a dictionary without zero row (the supplied
    one, or the draw when [learn_D = True]) has a [D_] with unit rows from
    its construction on, and no sequence of [forward] and [loss_forward]
    calls changes any stored tensor afterwards: renormalising unit rows
    leaves them as they are. *)
Theorem GatedSAE_unit_rows_kept (h : heap) (D : loc) (learn_D : bool)
  (kaiming_D kaiming_W : tensor) (cs : list call) :
  Forall nonzero_row (rows (if learn_D then kaiming_D else read h D)) ->
  let self := fst (GatedSAE.init h D learn_D kaiming_D kaiming_W) in
  let h0 := snd (GatedSAE.init h D learn_D kaiming_D kaiming_W) in
  unit_rows (read h0 (GatedSAE.D_ self)) /\
  (forall l, read (run_calls GatedSAE.forward GatedSAE.loss_forward self cs h0) l
             = read h0 l) /\
  unit_rows (read (run_calls GatedSAE.forward GatedSAE.loss_forward self cs h0)
                  (GatedSAE.D_ self)).
Proof.
  intros Hnz. cbv zeta.
  set (self := fst (GatedSAE.init h D learn_D kaiming_D kaiming_W)).
  set (h0 := snd (GatedSAE.init h D learn_D kaiming_D kaiming_W)).
  assert (Hunit : unit_rows (read h0 (GatedSAE.D_ self))).
  { unfold self, h0, GatedSAE.init. destruct learn_D.
    - unfold alloc. cbn [fst snd GatedSAE.D_]. apply normalize_in_place_unit.
      unfold read. simpl. rewrite Nat.eqb_refl. exact Hnz.
    - cbn [fst snd GatedSAE.D_]. now apply normalize_in_place_unit. }
  assert (Hreads : forall l,
             read (run_calls GatedSAE.forward GatedSAE.loss_forward self cs h0) l
             = read h0 l).
  { intros l.
    apply (run_calls_reads GatedSAE.forward GatedSAE.loss_forward self
             (fun h' => unit_rows (read h' (GatedSAE.D_ self))) (fun _ => True));
      auto.
    - intros h' X HP.
      assert (Hr : forall l', read (fst (GatedSAE.forward self h' X)) l' = read h' l').
      { intros l'. rewrite (proj1 (GatedSAE_store self h' X 0)).
        now apply optional_normalize_unit. }
      split; [now rewrite Hr | auto].
    - intros h' X w HP.
      assert (Hr : forall l', read (fst (GatedSAE.loss_forward self h' X w)) l'
                              = read h' l').
      { intros l'. rewrite (proj2 (GatedSAE_store self h' X w)).
        now apply optional_normalize_unit. }
      split; [now rewrite Hr | auto]. }
  split; [exact Hunit|]. split; [exact Hreads|]. now rewrite Hreads.
Qed.

Lemma GatedSAE_unit_rows_kept_witness :
  Forall nonzero_row (rows (read heap_two 0%nat)) /\
  unit_rows (read (run_calls GatedSAE.forward GatedSAE.loss_forward
                     (fst (GatedSAE.init heap_two 0%nat false (mkT 1 [[1]]) (mkT 1 [[1]])))
                     [Forward X_three; LossForward X_three 5]
                     (snd (GatedSAE.init heap_two 0%nat false (mkT 1 [[1]]) (mkT 1 [[1]]))))
                  0%nat).
Proof.
  split; [exact nonzero_row_two|].
  apply (GatedSAE_unit_rows_kept heap_two 0%nat false (mkT 1 [[1]]) (mkT 1 [[1]])
           [Forward X_three; LossForward X_three 5] nonzero_row_two).
Defined.

(** ** The shapes of what [forward] returns *)

Lemma bop_vec_shape f a v t :
  bop f a (of_vec v) = Some t ->
  nrows t = nrows a /\ bdim (ncols a) (length v) = Some (ncols t) /\ wf t.
Proof.
  intros H. pose proof (bop_ncols _ _ _ _ H) as Hc.
  pose proof (bop_nrows _ _ _ _ H) as Hr. pose proof (bop_wf _ _ _ _ H) as Hw.
  unfold nrows at 2 in Hr. simpl in Hr, Hc. rewrite bdim_one_r in Hr.
  repeat split; auto. congruence.
Qed.

Lemma matmul_shape a b t :
  matmul a b = Some t ->
  ncols t = ncols b /\ nrows t = nrows a /\ wf t /\ ncols a = nrows b.
Proof.
  intros H. pose proof (matmul_some _ _ _ H) as Hab. unfold matmul in H.
  apply Nat.eqb_eq in Hab as Hab'. rewrite Hab' in H. injection H as <-.
  unfold nrows, wf. simpl. repeat split; auto.
  - apply length_map.
  - apply Forall_forall. intros r Hin. apply in_map_iff in Hin.
    destruct Hin as [u [<- _]]. now rewrite length_map, length_seq.
Qed.

Lemma linear_nobias_shape w x y :
  linear_nobias w x = Some y ->
  ncols y = nrows w /\ nrows y = nrows x /\ wf y /\ ncols x = ncols w.
Proof.
  intros H. pose proof (linear_nobias_some _ _ _ H) as Hxw. unfold linear_nobias in H.
  apply Nat.eqb_eq in Hxw as Hxw'. rewrite Hxw' in H. injection H as <-.
  unfold nrows, wf. simpl. repeat split; auto.
  - apply length_map.
  - apply Forall_forall. intros r Hin. apply in_map_iff in Hin.
    destruct Hin as [u [<- _]]. now rewrite length_map.
Qed.

Lemma TopK_forward_shape (self : TopK.t) (x r : tensor) :
  wf x -> TopK.forward self x = Some r ->
  ncols r = ncols x /\ nrows r = nrows x /\ wf r.
Proof.
  intros Hwf Hr. pose proof (TopK_forward_range self x r Hr) as Hk.
  destruct (TopK_forward_rows self x Hwf Hk) as [topk [r' [_ [Hr' [Hc [Hn [Hw _]]]]]]].
  rewrite Hr in Hr'. injection Hr' as <-. auto.
Qed.

Lemma bdim_same_inv n c : bdim n n = Some c -> c = n.
Proof. rewrite bdim_same. congruence. Qed.

Tactic Notation "bind_inv" hyp(H) ident(x) ident(Hx) :=
  apply obind_some in H; destruct H as [x [Hx H]].

Lemma SparseAutoEncoder_forward_shapes (self : SparseAutoEncoder.t) h X N M S_ X_ :
  SparseAutoEncoder_shaped self h N M ->
  ncols (read h (SparseAutoEncoder.D_ self)) = M ->
  snd (SparseAutoEncoder.forward self h X) = Some (S_, X_) ->
  (wf S_ /\ nrows S_ = nrows X /\ ncols S_ = N) /\
  (wf X_ /\ nrows X_ = nrows X /\ ncols X_ = M).
Proof.
  revert self h X N M S_ X_.
  intros self h X N M S_ X_ [HWc [HWr [Hb HD]]] HDc H.
  unfold SparseAutoEncoder.forward in H. cbn [snd] in H.
  destruct (optional_normalize_shape (SparseAutoEncoder.learn_D self) h
              (SparseAutoEncoder.D_ self)) as [Hc Hr].
  bind_inv H S0 ES. bind_inv H X' EX. injection H as <- <-.
  unfold SparseAutoEncoder.encoder, linear in ES.
  bind_inv ES z Ez. bind_inv Ez y Ey. injection ES as <-.
  apply linear_nobias_shape in Ey. destruct Ey as [Eyc [Eyr [Eyw _]]].
  apply bop_vec_shape in Ez. destruct Ez as [Ezr [Ezc Ezw]].
  rewrite Eyc, HWr, Hb in Ezc. apply bdim_same_inv in Ezc.
  apply matmul_shape in EX. destruct EX as [Exc [Exr [Exw _]]].
  rewrite tmap_nrows in Exr.
  repeat split; auto using tmap_wf; try congruence.
  rewrite tmap_nrows. congruence.
Qed.

Lemma TopKSAE_forward_shapes (self : TopKSAE.t) h X N M S_ X_ :
  TopKSAE_shaped self h N M ->
  snd (TopKSAE.forward self h X) = Some (S_, X_) ->
  (wf S_ /\ nrows S_ = nrows X /\ ncols S_ = N) /\
  (wf X_ /\ nrows X_ = nrows X /\ ncols X_ = M).
Proof.
  revert self h X N M S_ X_.
  intros self h X N M S_ X_ [Hp [HWc [HWr [Hb [HDr HDc]]]]] H.
  unfold TopKSAE.forward in H. cbn [snd] in H.
  destruct (optional_normalize_shape (TopKSAE.learn_D self) h (TopKSAE.D_ self))
    as [Hc Hr].
  bind_inv H P EP. bind_inv H S0 ES. bind_inv H t Et. bind_inv H X' EX.
  injection H as <- <-.
  unfold TopKSAE.pre_act in EP. bind_inv EP c Ec. bind_inv EP y Ey.
  apply bop_vec_shape in Ec. destruct Ec as [Ecr _].
  apply linear_nobias_shape in Ey. destruct Ey as [Eyc [Eyr _]].
  apply bop_vec_shape in EP. destruct EP as [EPr [EPc EPw]].
  rewrite Eyc, HWr, Hb in EPc. apply bdim_same_inv in EPc.
  apply (TopK_forward_shape _ _ _ EPw) in ES. destruct ES as [ESc [ESr ESw]].
  apply matmul_shape in Et. destruct Et as [Etc [Etr _]].
  apply bop_vec_shape in EX. destruct EX as [EXr [EXc EXw]].
  rewrite Etc, Hc, HDc, Hp in EXc. apply bdim_same_inv in EXc.
  repeat split; auto; congruence.
Qed.

Lemma GatedSAE_forward_shapes (self : GatedSAE.t) h X N M S_ X_ pre_gate_hidden :
  GatedSAE_shaped self h N M ->
  snd (GatedSAE.forward self h X) = Some (S_, X_, pre_gate_hidden) ->
  (wf S_ /\ nrows S_ = nrows X /\ ncols S_ = N) /\
  (wf X_ /\ nrows X_ = nrows X /\ ncols X_ = M) /\
  (wf pre_gate_hidden /\ nrows pre_gate_hidden = nrows X /\
   ncols pre_gate_hidden = N).
Proof.
  revert self h X N M S_ X_ pre_gate_hidden.
  intros self h X N M S_ X_ pg [Hbd [HWr [HWc [Hrm [Hbm [Hbg [HDr HDc]]]]]]] H.
  unfold GatedSAE.forward in H. cbn [snd] in H.
  destruct (optional_normalize_shape (GatedSAE.learn_D self) h (GatedSAE.D_ self))
    as [Hc Hr].
  bind_inv H c Ec. bind_inv H pre Epre. bind_inv H Spg Ecode.
  destruct Spg as [S1 pg']. bind_inv H t Et. bind_inv H X' EX.
  injection H as <- <- <-.
  apply bop_vec_shape in Ec. destruct Ec as [Ecr _].
  apply matmul_shape in Epre. destruct Epre as [Epc [Epr _]].
  unfold GatedSAE.code in Ecode.
  bind_inv Ecode sc Esc. bind_inv Ecode pm Epm. bind_inv Ecode pg0 Epg.
  bind_inv Ecode S0 ES. injection Ecode as <- <-.
  apply bop_vec_shape in Esc. destruct Esc as [Esr [Esc _]].
  rewrite length_map, Epc, HWc, Hrm in Esc. apply bdim_same_inv in Esc.
  apply bop_vec_shape in Epm. destruct Epm as [Emr [Emc Emw]].
  rewrite Esc, Hbm in Emc. apply bdim_same_inv in Emc.
  apply bop_vec_shape in Epg. destruct Epg as [Egr [Egc Egw]].
  rewrite Epc, HWc, Hbg in Egc. apply bdim_same_inv in Egc.
  pose proof (bop_wf _ _ _ _ ES) as ESw.
  pose proof (bop_ncols _ _ _ _ ES) as ESc. pose proof (bop_nrows _ _ _ _ ES) as ESr.
  unfold GatedSAE.gate in ESc, ESr. rewrite !tmap_nrows in ESr.
  change (bdim (ncols pm) (ncols pg0) = Some (ncols S0)) in ESc.
  rewrite Emc, Egc in ESc. apply bdim_same_inv in ESc.
  rewrite Emr, Esr, Egr in ESr. apply bdim_same_inv in ESr.
  apply matmul_shape in Et. destruct Et as [Etc [Etr _]].
  apply bop_vec_shape in EX. destruct EX as [EXr [EXc EXw]].
  rewrite Etc, Hc, HDc, Hbd in EXc. apply bdim_same_inv in EXc.
  repeat split; auto; congruence.
Qed.

(** X10.  When [forward] returns, for parameters of the constructor's
    shapes and an input of [b] rows: the code [S_] is a well-formed tensor of
    shape (b, N) and the reconstruction [X_] one of shape (b, M), for
    [SparseAutoEncoder], [TopKSAE] and [GatedSAE] (whose [pre_gate_hidden]
    has shape (b, N) too), also when the input has a single column. *)
Theorem forward_output_shapes :
  (forall (self : SparseAutoEncoder.t) h X N M S_ X_,
      SparseAutoEncoder_shaped self h N M ->
      ncols (read h (SparseAutoEncoder.D_ self)) = M ->
      snd (SparseAutoEncoder.forward self h X) = Some (S_, X_) ->
      (wf S_ /\ nrows S_ = nrows X /\ ncols S_ = N) /\
      (wf X_ /\ nrows X_ = nrows X /\ ncols X_ = M)) /\
  (forall (self : TopKSAE.t) h X N M S_ X_,
      TopKSAE_shaped self h N M ->
      snd (TopKSAE.forward self h X) = Some (S_, X_) ->
      (wf S_ /\ nrows S_ = nrows X /\ ncols S_ = N) /\
      (wf X_ /\ nrows X_ = nrows X /\ ncols X_ = M)) /\
  (forall (self : GatedSAE.t) h X N M S_ X_ pre_gate_hidden,
      GatedSAE_shaped self h N M ->
      snd (GatedSAE.forward self h X) = Some (S_, X_, pre_gate_hidden) ->
      (wf S_ /\ nrows S_ = nrows X /\ ncols S_ = N) /\
      (wf X_ /\ nrows X_ = nrows X /\ ncols X_ = M) /\
      (wf pre_gate_hidden /\ nrows pre_gate_hidden = nrows X /\
       ncols pre_gate_hidden = N)).
Proof.
  split; [|split].
  - intros. eapply SparseAutoEncoder_forward_shapes; eauto.
  - intros. eapply TopKSAE_forward_shapes; eauto.
  - intros. eapply GatedSAE_forward_shapes; eauto.
Qed.

Lemma forward_output_shapes_witness :
  TopKSAE_shaped (topksae_wide false) heap_wide 1 2 /\
  exists S_ X_,
    snd (TopKSAE.forward (topksae_wide false) heap_wide X_column) = Some (S_, X_) /\
    (nrows S_ = 2%nat /\ ncols S_ = 1%nat) /\ (nrows X_ = 2%nat /\ ncols X_ = 2%nat).
Proof.
  destruct forward_output_shapes as [_ [H _]].
  assert (Hs : TopKSAE_shaped (topksae_wide false) heap_wide 1 2) by (repeat split).
  split; [exact Hs|].
  do 2 eexists. split; [reflexivity|].
  match goal with
  | |- (nrows ?S = _ /\ _) /\ (nrows ?X' = _ /\ _) =>
      destruct (H (topksae_wide false) heap_wide X_column 1%nat 2%nat S X' Hs eq_refl)
        as [[_ [H1 H2]] [_ [H3 H4]]]
  end.
  split; split; assumption.
Defined.

(** ** The losses *)

Lemma sum_nonneg l : Forall (fun v => 0 <= v) l -> 0 <= sum l.
Proof.
  induction 1 as [|a l Ha Hl IH]; simpl; lra.
Qed.

Lemma tsum_nonneg t : entries (fun v => 0 <= v) t -> 0 <= tsum t.
Proof.
  unfold entries, tsum. intros H. apply sum_nonneg.
  apply Forall_forall. intros s Hs. apply in_map_iff in Hs.
  destruct Hs as [r [<- Hr]]. apply sum_nonneg.
  rewrite Forall_forall in H. now apply H.
Qed.

Lemma tsum_squares_nonneg t : 0 <= tsum (tmap (fun d => d ^ 2) t).
Proof.
  apply tsum_nonneg. apply tmap_Forall. intros x. apply pow2_ge_0.
Qed.

Lemma tsum_abs_nonneg t : 0 <= tsum (tmap Rabs t).
Proof.
  apply tsum_nonneg. apply tmap_Forall. intros x. apply Rabs_pos.
Qed.

(** X11.  The loss of [SparseCoding] and of [SparseAutoEncoder] is the
    summed squared error plus [weight] times the L1 norm of the code: the
    code and the reconstruction do not depend on [weight], the loss is
    non-negative for a non-negative [weight], it does not decrease when
    [weight] grows, and two weights give losses that differ by the
    difference of the weights times the L1 norm. *)
Theorem l1_loss_in_weight :
  (forall (self : SparseCoding.t) h X w w' S_ X_ loss,
      snd (SparseCoding.loss_forward self h X w) = Some (S_, X_, loss) ->
      snd (SparseCoding.forward self h (Some X)) = Some (S_, X_) /\
      (0 <= w -> 0 <= loss) /\
      exists loss',
        snd (SparseCoding.loss_forward self h X w') = Some (S_, X_, loss') /\
        loss' - loss = (w' - w) * tsum (tmap Rabs S_) /\
        (w <= w' -> loss <= loss')) /\
  (forall (self : SparseAutoEncoder.t) h X w w' S_ X_ loss,
      snd (SparseAutoEncoder.loss_forward self h X w) = Some (S_, X_, loss) ->
      snd (SparseAutoEncoder.forward self h X) = Some (S_, X_) /\
      (0 <= w -> 0 <= loss) /\
      exists loss',
        snd (SparseAutoEncoder.loss_forward self h X w') = Some (S_, X_, loss') /\
        loss' - loss = (w' - w) * tsum (tmap Rabs S_) /\
        (w <= w' -> loss <= loss')).
Proof.
  split.
  - intros self h X w w' S_ X_ loss H. unfold SparseCoding.loss_forward in *.
    destruct (SparseCoding.forward self h (Some X)) as [h1 r] eqn:Hf.
    unfold snd in *. bind_inv H SX ESX. destruct SX as [S0 X0].
    bind_inv H e Ee. injection H as <- <- <-.
    pose proof (tsum_squares_nonneg e) as Hsq. pose proof (tsum_abs_nonneg S0) as Hl1.
    simpl pow in *.
    split; [exact ESX|]. split; [intros Hw; nra|].
    rewrite ESX, obind_ret, Ee, obind_ret. eexists. split; [reflexivity|].
    split; [ring | intros Hw; nra].
  - intros self h X w w' S_ X_ loss H. unfold SparseAutoEncoder.loss_forward in *.
    destruct (SparseAutoEncoder.forward self h X) as [h1 r] eqn:Hf.
    unfold snd in *. bind_inv H SX ESX. destruct SX as [S0 X0].
    bind_inv H e Ee. injection H as <- <- <-.
    pose proof (tsum_squares_nonneg e) as Hsq. pose proof (tsum_abs_nonneg S0) as Hl1.
    simpl pow in *.
    split; [exact ESX|]. split; [intros Hw; nra|].
    rewrite ESX, obind_ret, Ee, obind_ret. eexists. split; [reflexivity|].
    split; [ring | intros Hw; nra].
Qed.

Lemma l1_loss_in_weight_witness :
  exists S_ X_ loss loss',
    snd (SparseAutoEncoder.loss_forward (autoencoder_one false) heap_two X_three 1)
      = Some (S_, X_, loss) /\
    snd (SparseAutoEncoder.loss_forward (autoencoder_one false) heap_two X_three 2)
      = Some (S_, X_, loss') /\
    0 <= loss /\ loss <= loss'.
Proof.
  destruct l1_loss_in_weight as [_ H].
  do 2 eexists.
  match goal with
  | |- exists loss loss', ?L = Some (?S, ?X', loss) /\ _ =>
      assert (E : exists l0, L = Some (S, X', l0)) by (eexists; reflexivity)
  end.
  destruct E as [l0 E].
  destruct (H (autoencoder_one false) heap_two X_three 1 2 _ _ l0 E)
    as [_ [Hpos [l1 [E1 [_ Hmono]]]]].
  exists l0, l1. split; [exact E|]. split; [exact E1|].
  split; [apply Hpos; lra | apply Hmono; lra].
Defined.





Lemma bdim_pos a b c : bdim a b = Some c -> (0 < a)%nat -> (0 < b)%nat -> (0 < c)%nat.
Proof.
  unfold bdim. intros H Ha Hb.
  destruct (a =? b)%nat; [injection H as <-; lia|].
  destruct (a =? 1)%nat; [injection H as <-; lia|].
  destruct (b =? 1)%nat; [injection H as <-; lia | discriminate].
Qed.

(** The mean squared error of non-empty tensors is non-negative. *)
Lemma mse_mean_nonneg a b m :
  mse_loss a b Mean = Some m ->
  (0 < nrows a)%nat -> (0 < nrows b)%nat -> (0 < ncols a)%nat -> (0 < ncols b)%nat ->
  0 <= m.
Proof.
  unfold mse_loss. intros H Hra Hrb Hca Hcb. bind_inv H e Ee. injection H as <-.
  pose proof (bdim_pos _ _ _ (bop_ncols _ _ _ _ Ee) Hca Hcb) as Hc.
  pose proof (bdim_pos _ _ _ (bop_nrows _ _ _ _ Ee) Hra Hrb) as Hr.
  rewrite tmap_nrows. change (ncols (tmap (fun d => d ^ 2) e)) with (ncols e).
  apply Rmult_le_pos; [apply tsum_squares_nonneg|].
  left. apply Rinv_0_lt_compat. apply lt_0_INR. nia.
Qed.

(** X13.  The loss of [GatedSAE], on a non-empty input and for parameters
    of the constructor's shapes: it is the mean squared error of the
    reconstruction, plus [l1_weight] times the sum of [relu(pre_gate_hidden)],
    plus the mean squared error of the auxiliary reconstruction.  The code
    and the reconstruction are those of [forward]; the loss is non-negative
    for a non-negative [l1_weight], and two weights give losses that differ
    by the difference of the weights times the gate magnitude, so that the
    loss does not decrease when [l1_weight] grows. *)
Theorem GatedSAE_loss_in_weight (self : GatedSAE.t) h X N M l1 l1' S_ X_ loss :
  GatedSAE_shaped self h N M ->
  (0 < nrows X)%nat -> (0 < ncols X)%nat -> (0 < M)%nat ->
  snd (GatedSAE.loss_forward self h X l1) = Some (S_, X_, loss) ->
  exists pre_gate_hidden loss',
    snd (GatedSAE.forward self h X) = Some (S_, X_, pre_gate_hidden) /\
    snd (GatedSAE.loss_forward self h X l1') = Some (S_, X_, loss') /\
    0 <= tsum (tmap relu pre_gate_hidden) /\
    loss' - loss = (l1' - l1) * tsum (tmap relu pre_gate_hidden) /\
    (0 <= l1 -> 0 <= loss) /\
    (l1 <= l1' -> loss <= loss').
Proof.
  intros Hs HrX HcX HM H.
  pose proof (GatedSAE_forward_shapes self h X N M) as Hshapes.
  unfold GatedSAE.loss_forward in *.
  destruct (GatedSAE.forward self h X) as [h1 r] eqn:Hf.
  assert (Hh1 : h1 = fst (GatedSAE.forward self h X)) by now rewrite Hf.
  unfold snd in H, Hshapes |- *.
  bind_inv H SXp Er. destruct SXp as [[S0 X0] pg]. subst r.
  destruct (Hshapes S0 X0 pg Hs eq_refl) as [_ [[HwX [HrX0 HcX0]] [Hwp [Hrp Hcp]]]].
  bind_inv H mse Emse. bind_inv H rec Erec. bind_inv H grec Eg. bind_inv H aux Eaux.
  injection H as <- <- <-.
  exists pg. rewrite !obind_ret, Emse, obind_ret, Erec, obind_ret, Eg, obind_ret, Eaux,
    obind_ret.
  eexists. split; [reflexivity|]. split; [reflexivity|].
  assert (Hgm : 0 <= tsum (tmap relu pg)).
  { apply tsum_nonneg. apply tmap_Forall. apply relu_nonneg. }
  assert (Hmse : 0 <= mse).
  { apply (mse_mean_nonneg X0 X mse Emse); lia. }
  assert (Haux : 0 <= aux).
  { apply matmul_shape in Erec. destruct Erec as [Erc [Err _]].
    apply bop_vec_shape in Eg. destruct Eg as [Egr [Egc _]].
    destruct Hs as [Hbd [_ [_ [_ [_ [_ [_ HDc]]]]]]].
    assert (HD1 : ncols (read h1 (GatedSAE.D_ self)) = M).
    { rewrite Hh1, (proj1 (GatedSAE_store self h X 0)).
      now rewrite (proj1 (optional_normalize_shape _ _ _)). }
    rewrite Erc, HD1, Hbd in Egc. apply bdim_same_inv in Egc.
    rewrite tmap_nrows in Err.
    apply (mse_mean_nonneg grec X aux Eaux); lia. }
  split; [exact Hgm|]. split; [ring|]. split; intros Hl; nra.
Qed.

Lemma GatedSAE_loss_in_weight_witness :
  GatedSAE_shaped (gated_one false) heap_two 1 1 /\
  exists S_ X_ loss loss',
    snd (GatedSAE.loss_forward (gated_one false) heap_two X_three 1) = Some (S_, X_, loss) /\
    snd (GatedSAE.loss_forward (gated_one false) heap_two X_three 2) = Some (S_, X_, loss') /\
    0 <= loss /\ loss <= loss'.
Proof.
  assert (Hs : GatedSAE_shaped (gated_one false) heap_two 1 1) by (repeat split).
  split; [exact Hs|].
  do 2 eexists.
  match goal with
  | |- exists loss loss', ?L = Some (?S, ?X', loss) /\ _ =>
      assert (E : exists l0, L = Some (S, X', l0)) by (eexists; reflexivity)
  end.
  destruct E as [l0 E].
  assert (H1 : (0 < nrows X_three)%nat) by (unfold nrows; simpl; lia).
  assert (H2 : (0 < ncols X_three)%nat) by (simpl; lia).
  assert (H3 : (0 < 1)%nat) by lia.
  destruct (GatedSAE_loss_in_weight _ _ _ _ _ 1 2 _ _ _ Hs H1 H2 H3 E)
    as [pg [l1 [_ [E1 [_ [_ [Hpos Hmono]]]]]]].
  exists l0, l1. split; [exact E|]. split; [exact E1|].
  split; [apply Hpos; lra | apply Hmono; lra].
Defined.

(** ** The gradient projection, applied again *)

Lemma map2_minus_zero u v :
  length u = length v -> map2 Rminus u (map (Rmult 0) v) = u.
Proof.
  unfold map2. revert v.
  induction u as [|a u IH]; intros [|b v] H; simpl in *; try discriminate;
    [reflexivity|].
  rewrite IH by lia. f_equal. ring.
Qed.

Lemma proj_row_length g d : length g = length d -> length (proj_row g d) = length d.
Proof.
  intros H. unfold proj_row. rewrite map2_length, !length_map. lia.
Qed.

Lemma proj_row_idempotent g d :
  length g = length d -> nonzero_row d -> proj_row (proj_row g d) d = proj_row g d.
Proof.
  intros Hlen Hnz. unfold proj_row at 1.
  rewrite (proj_row_orthogonal g d Hlen Hnz).
  apply map2_minus_zero. rewrite length_map. now apply proj_row_length.
Qed.

Lemma proj_rows_idempotent (c : nat) (G D : list (list R)) :
  Forall (fun r => length r = c) G -> Forall (fun r => length r = c) D ->
  Forall nonzero_row D ->
  map2 proj_row (map2 proj_row G D) D = map2 proj_row G D.
Proof.
  unfold map2. intros HG. revert D.
  induction HG as [|g G Hg HG IH]; intros [|d D] HD Hnz; simpl; try reflexivity.
  apply Forall_cons_iff in HD. destruct HD as [Hd HD].
  apply Forall_cons_iff in Hnz. destruct Hnz as [Hnd Hnz].
  rewrite IH by auto. f_equal. apply proj_row_idempotent; [congruence | exact Hnd].
Qed.

Lemma proj_rows_wf (c : nat) (G D : list (list R)) :
  Forall (fun r => length r = c) G -> Forall (fun r => length r = c) D ->
  Forall (fun r => length r = c) (map2 proj_row G D).
Proof.
  intros HG HD. apply map2_rows_wf. intros u v Hu Hv.
  rewrite Forall_forall in HG, HD.
  rewrite proj_row_length; [now apply HD | rewrite (HG u Hu), (HD v Hv); reflexivity].
Qed.

(** X14.  Given a stored gradient of the shape of [D_] and no zero row in
    [D_], calling [make_decoder_weights_and_grad_unit_norm] a second time
    changes nothing: the gradient it stores is the one the first call
    stored. *)
Theorem make_unit_norm_twice (self : GatedSAE.t) (h : heap) (g : tensor) :
  GatedSAE.D_grad self = Some g ->
  wf g -> wf (read h (GatedSAE.D_ self)) ->
  same_shape g (read h (GatedSAE.D_ self)) ->
  Forall nonzero_row (rows (read h (GatedSAE.D_ self))) ->
  exists self1 self2,
    GatedSAE.make_decoder_weights_and_grad_unit_norm self h = Some (self1, h) /\
    GatedSAE.make_decoder_weights_and_grad_unit_norm self1 h = Some (self2, h) /\
    GatedSAE.D_grad self2 = GatedSAE.D_grad self1.
Proof.
  intros Hg Hwg Hwd Hsh Hnz.
  destruct (make_unit_norm_closed_form self h g Hg Hwg Hwd Hsh) as [self1 [Hm1 [HD1 Hg1]]].
  destruct Hsh as [Hc Hr].
  set (D := read h (GatedSAE.D_ self)) in *.
  set (g1 := mkT (ncols g) (map2 proj_row (rows g) (rows D))) in *.
  assert (Hwg1 : wf g1).
  { unfold wf, g1. simpl. apply proj_rows_wf; [exact Hwg|]. rewrite Hc. exact Hwd. }
  assert (Hsh1 : same_shape g1 (read h (GatedSAE.D_ self1))).
  { rewrite HD1. fold D. split; [exact Hc|].
    unfold nrows, g1 in *. simpl. rewrite map2_length. lia. }
  assert (Hwd1 : wf (read h (GatedSAE.D_ self1))) by (rewrite HD1; exact Hwd).
  destruct (make_unit_norm_closed_form self1 h g1 Hg1 Hwg1 Hwd1 Hsh1)
    as [self2 [Hm2 [_ Hg2]]].
  exists self1, self2. split; [exact Hm1|]. split; [exact Hm2|].
  rewrite Hg2, Hg1, HD1. fold D. unfold g1. cbn [ncols rows]. do 2 f_equal.
  apply (proj_rows_idempotent (ncols g)); auto.
  rewrite Hc. exact Hwd.
Qed.

Lemma make_unit_norm_twice_witness :
  exists self1 self2,
    GatedSAE.make_decoder_weights_and_grad_unit_norm gated_two heap_two
      = Some (self1, heap_two) /\
    GatedSAE.make_decoder_weights_and_grad_unit_norm self1 heap_two
      = Some (self2, heap_two) /\
    GatedSAE.D_grad self2 = GatedSAE.D_grad self1.
Proof.
  apply (make_unit_norm_twice gated_two heap_two (mkT 1 [[1]])).
  - reflexivity.
  - repeat constructor.
  - repeat constructor.
  - split; reflexivity.
  - exact nonzero_row_two.
Defined.

(** ** The projection does not lengthen the gradient *)

Lemma sumsq_map2_minus u v :
  length u = length v ->
  sumsq (map2 Rminus u v) = sumsq u - 2 * dot u v + sumsq v.
Proof.
  unfold sumsq, dot, map2. revert v.
  induction u as [|a u IH]; intros [|b v] H; simpl in *; try discriminate; [lra|].
  rewrite IH by lia. ring.
Qed.

Lemma sumsq_mult c v : sumsq (map (Rmult c) v) = c * c * sumsq v.
Proof.
  unfold sumsq. induction v as [|a v IH]; simpl; [ring|]. rewrite IH. ring.
Qed.

Lemma dot_scale_r c u v : dot u (map (Rmult c) v) = c * dot u v.
Proof.
  unfold dot, map2. revert v.
  induction u as [|a u IH]; intros [|b v]; simpl; try ring.
  rewrite IH. ring.
Qed.

Lemma proj_row_sumsq g d :
  length g = length d -> nonzero_row d ->
  sumsq (proj_row g d)
  = sumsq g - dot g (map (fun x => x / row_norm d) d) ^ 2.
Proof.
  intros Hlen Hnz. unfold proj_row.
  rewrite sumsq_map2_minus by (rewrite !length_map; exact Hlen).
  rewrite dot_scale_r, sumsq_mult, sumsq_normalized by exact Hnz. ring.
Qed.

(** X15.  Given a stored gradient of the shape of [D_] and no zero row in
    [D_], [make_decoder_weights_and_grad_unit_norm] removes from each
    gradient row the square of its component along the normalised
    dictionary row: the squared norm of the stored row is the squared norm
    of the row before minus that square, so no gradient row gets longer. *)
Theorem make_unit_norm_shortens_grad (self : GatedSAE.t) (h : heap) (g : tensor) :
  GatedSAE.D_grad self = Some g ->
  wf g -> wf (read h (GatedSAE.D_ self)) ->
  same_shape g (read h (GatedSAE.D_ self)) ->
  Forall nonzero_row (rows (read h (GatedSAE.D_ self))) ->
  exists self' g',
    GatedSAE.make_decoder_weights_and_grad_unit_norm self h = Some (self', h) /\
    GatedSAE.D_grad self' = Some g' /\
    forall i, (i < nrows g)%nat ->
      sumsq (nth i (rows g') [])
      = sumsq (nth i (rows g) [])
        - dot (nth i (rows g) [])
              (nth i (rows (normalize_rows (read h (GatedSAE.D_ self)))) []) ^ 2 /\
      row_norm (nth i (rows g') []) <= row_norm (nth i (rows g) []).
Proof.
  intros Hg Hwg Hwd Hsh Hnz.
  destruct (make_unit_norm_closed_form self h g Hg Hwg Hwd Hsh) as [self' [Hm [_ Hg']]].
  destruct Hsh as [Hc Hr].
  set (D := read h (GatedSAE.D_ self)) in *.
  exists self', (mkT (ncols g) (map2 proj_row (rows g) (rows D))).
  split; [exact Hm|]. split; [exact Hg'|].
  intros i Hi. cbn [rows].
  rewrite (nth_map2 proj_row [] [] []) by (unfold nrows in *; lia).
  assert (Hn : nth i (rows (normalize_rows D)) []
               = map (fun x => x / row_norm (nth i (rows D) [])) (nth i (rows D) [])).
  { unfold normalize_rows. cbn [rows].
    change (@nil R) with ((fun r => map (fun x => x / row_norm r) r) []) at 1.
    now rewrite map_nth. }
  assert (Heq : sumsq (proj_row (nth i (rows g) []) (nth i (rows D) []))
                = sumsq (nth i (rows g) [])
                  - dot (nth i (rows g) []) (nth i (rows (normalize_rows D)) []) ^ 2).
  { rewrite Hn. apply proj_row_sumsq.
    - rewrite !wf_nth; auto. lia.
    - rewrite Forall_forall in Hnz. apply Hnz. apply nth_In. unfold nrows in *. lia. }
  split; [exact Heq|].
  unfold row_norm. fold (sumsq (proj_row (nth i (rows g) []) (nth i (rows D) []))).
  fold (sumsq (nth i (rows g) [])). apply sqrt_le_1.
  - apply sumsq_nonneg.
  - apply sumsq_nonneg.
  - rewrite Heq.
    pose proof (pow2_ge_0 (dot (nth i (rows g) []) (nth i (rows (normalize_rows D)) []))).
    lra.
Qed.

Lemma make_unit_norm_shortens_grad_witness :
  exists self' g',
    GatedSAE.make_decoder_weights_and_grad_unit_norm gated_two heap_two
      = Some (self', heap_two) /\
    GatedSAE.D_grad self' = Some g' /\
    row_norm (nth 0 (rows g') []) <= row_norm [1].
Proof.
  destruct (make_unit_norm_shortens_grad gated_two heap_two (mkT 1 [[1]]))
    as [self' [g' [Hm [Hg H]]]].
  - reflexivity.
  - repeat constructor.
  - repeat constructor.
  - split; reflexivity.
  - exact nonzero_row_two.
  - exists self', g'. split; [exact Hm|]. split; [exact Hg|].
    apply (H 0%nat). unfold nrows. simpl. lia.
Defined.

(** ** The gated code, entry by entry *)

Lemma expand_one {A : Type} (d x : A) n : expand d n [x] = repeat x n.
Proof.
  unfold expand. simpl. destruct n as [|[|n]]; reflexivity.
Qed.

Lemma map2_repeat_r {A B C : Type} (F : A -> B -> C) (us : list A) (v : B) :
  map2 F us (repeat v (length us)) = map (fun u => F u v) us.
Proof.
  unfold map2. induction us as [|u us IH]; simpl; [reflexivity|]. now rewrite IH.
Qed.

(** A tensor against a 1-D parameter of its width, row by row. *)
Lemma bop_vec_rows f a v :
  wf a -> ncols a = length v ->
  bop f a (of_vec v) = Some (mkT (ncols a) (map (fun u => map2 f u v) (rows a))).
Proof.
  intros Hwf Hc. unfold bop. simpl. rewrite <- Hc, bdim_same.
  unfold nrows at 2. simpl. rewrite bdim_one_r. simpl. do 2 f_equal.
  rewrite expand_same by reflexivity. rewrite expand_one.
  unfold nrows. rewrite map2_repeat_r. apply map_ext_in. intros u Hu.
  unfold wf in Hwf. rewrite Forall_forall in Hwf.
  rewrite !expand_same; auto.
Qed.

Lemma bop_vec_get f a v t i j :
  wf a -> ncols a = length v -> bop f a (of_vec v) = Some t ->
  (i < nrows a)%nat -> (j < ncols a)%nat ->
  get t i j = f (get a i j) (nth j v 0).
Proof.
  intros Hwf Hc H Hi Hj. rewrite (bop_vec_rows f a v Hwf Hc) in H. injection H as <-.
  unfold get. cbn [rows].
  change (@nil R) with ((fun u => map2 f u v) []) at 1. rewrite map_nth.
  apply nth_map2; [rewrite wf_nth; auto | lia].
Qed.

Lemma bop_same_shape_get f a b t i j :
  wf a -> wf b -> ncols a = ncols b -> nrows a = nrows b ->
  bop f a b = Some t -> (i < nrows a)%nat -> (j < ncols a)%nat ->
  get t i j = f (get a i j) (get b i j).
Proof.
  intros Ha Hb Hc Hr H Hi Hj. rewrite (bop_rows_same f a b Ha Hb Hc Hr) in H.
  injection H as <-. unfold get. cbn [rows].
  rewrite (nth_map2 (map2 f) [] [] []) by (unfold nrows in *; lia).
  apply nth_map2; rewrite wf_nth; auto; lia.
Qed.

Lemma GatedSAE_code_entry (self : GatedSAE.t) h X N M S_ X_ pre_gate_hidden i j :
  GatedSAE_shaped self h N M ->
  snd (GatedSAE.forward self h X) = Some (S_, X_, pre_gate_hidden) ->
  (i < nrows X)%nat -> (j < N)%nat ->
  let p := get pre_gate_hidden i j in
  let mag := relu ((p - nth j (GatedSAE.b_gate self) 0)
                   * exp (nth j (GatedSAE.r_mag self) 0)
                   + nth j (GatedSAE.b_mag self) 0) in
  get S_ i j = mag * ((sign p + 1) / 2) /\
  (p < 0 -> get S_ i j = 0) /\
  (0 < p -> get S_ i j = mag).
Proof.
  intros [Hbd [HWr [HWc [Hrm [Hbm [Hbg [HDr HDc]]]]]]] H Hi Hj.
  unfold GatedSAE.forward in H. cbn [snd] in H.
  bind_inv H c Ec. bind_inv H pre Epre. bind_inv H Spg Ecode.
  destruct Spg as [S1 pg']. bind_inv H t Et. bind_inv H X' EX.
  injection H as <- _ <-.
  apply bop_vec_shape in Ec. destruct Ec as [Ecr _].
  apply matmul_shape in Epre. destruct Epre as [Epc [Epr [Epw _]]].
  unfold GatedSAE.code in Ecode.
  bind_inv Ecode sc Esc. bind_inv Ecode pm Epm. bind_inv Ecode pg0 Epg.
  bind_inv Ecode S0 ES. injection Ecode as <- <-.
  assert (Hpc : ncols pre = N) by congruence.
  assert (Hpr : nrows pre = nrows X) by congruence.
  pose proof (bop_vec_shape _ _ _ _ Esc) as [Esr [Escc Escw]].
  rewrite length_map, Hpc, Hrm in Escc. apply bdim_same_inv in Escc.
  pose proof (bop_vec_shape _ _ _ _ Epm) as [Emr [Emc Emw]].
  rewrite Escc, Hbm in Emc. apply bdim_same_inv in Emc.
  pose proof (bop_vec_shape _ _ _ _ Epg) as [Egr [Egc Egw]].
  rewrite Hpc, Hbg in Egc. apply bdim_same_inv in Egc.
  assert (Hsc : get sc i j = get pre i j * exp (nth j (GatedSAE.r_mag self) 0)).
  { rewrite (bop_vec_get Rmult pre (map exp (GatedSAE.r_mag self)) sc i j); auto;
      try (rewrite ?length_map; congruence); try lia.
    f_equal. rewrite (nth_indep _ 0 (exp 0)) by (rewrite length_map; lia).
    apply map_nth. }
  assert (Hpm : get pm i j = get sc i j + nth j (GatedSAE.b_mag self) 0).
  { apply (bop_vec_get Rplus sc (GatedSAE.b_mag self) pm i j); auto;
      try congruence; lia. }
  assert (Hpg : get pg0 i j = get pre i j + nth j (GatedSAE.b_gate self) 0).
  { apply (bop_vec_get Rplus pre (GatedSAE.b_gate self) pg0 i j); auto;
      try congruence; lia. }
  assert (HS : get S0 i j = get (tmap relu pm) i j * get (GatedSAE.gate pg0) i j).
  { apply (bop_same_shape_get Rmult (tmap relu pm) (GatedSAE.gate pg0) S0 i j); auto.
    - now apply tmap_wf.
    - unfold GatedSAE.gate. now apply tmap_wf.
    - change (ncols pm = ncols pg0). congruence.
    - unfold GatedSAE.gate. rewrite !tmap_nrows. congruence.
    - rewrite tmap_nrows. lia.
    - change (j < ncols pm)%nat. lia. }
  unfold GatedSAE.gate in HS.
  rewrite !get_tmap in HS by (try rewrite wf_nth; auto; lia).
  cbv zeta.
  assert (Hmag : get pm i j
                 = (get pg0 i j - nth j (GatedSAE.b_gate self) 0)
                   * exp (nth j (GatedSAE.r_mag self) 0)
                   + nth j (GatedSAE.b_mag self) 0).
  { rewrite Hpm, Hsc, Hpg. ring. }
  rewrite <- Hmag. split; [exact HS|].
  destruct (gate_cases (get pg0 i j)) as [Hn [_ Hp]].
  split; intros Hsgn; rewrite HS; [rewrite Hn | rewrite Hp]; auto; ring.
Qed.




(** ** C7: the gate inside [forward] *)

(** C7.  [GatedSAE.forward] computes its results through these steps, each
    fixed by the input and the parameters: the shared pre-activation
    [(X - b_dec) @ W_gate], the magnitude pre-activation
    [preactivations_hidden * exp(r_mag) + b_mag], the returned
    [pre_gate_hidden = preactivations_hidden + b_gate], the gate
    [post_gate_hidden = (sign(pre_gate_hidden) + 1) / 2] and the code
    [S_ = relu(pre_mag_hidden) * post_gate_hidden].  Every entry of
    [post_gate_hidden] is 0 where [pre_gate_hidden] is negative, 1/2 where it
    is exactly zero and 1 where it is positive, so that it takes its values
    in {0, 1/2, 1}; and, for parameters of the constructor's shapes, every
    entry of the code is the ReLU magnitude times that entry of the gate. *)
Theorem GatedSAE_post_gate_values (self : GatedSAE.t) h X S_ X_ pre_gate_hidden :
  snd (GatedSAE.forward self h X) = Some (S_, X_, pre_gate_hidden) ->
  exists centered preactivations_hidden scaled pre_mag_hidden,
    bop Rminus X (of_vec (GatedSAE.b_dec self)) = Some centered /\
    matmul centered (GatedSAE.W_gate self) = Some preactivations_hidden /\
    bop Rmult preactivations_hidden (of_vec (map exp (GatedSAE.r_mag self)))
      = Some scaled /\
    bop Rplus scaled (of_vec (GatedSAE.b_mag self)) = Some pre_mag_hidden /\
    bop Rplus preactivations_hidden (of_vec (GatedSAE.b_gate self))
      = Some pre_gate_hidden /\
    let post_gate_hidden := GatedSAE.gate pre_gate_hidden in
    bop Rmult (tmap relu pre_mag_hidden) post_gate_hidden = Some S_ /\
    (forall i j, (i < nrows pre_gate_hidden)%nat -> (j < ncols pre_gate_hidden)%nat ->
        get post_gate_hidden i j = (sign (get pre_gate_hidden i j) + 1) / 2 /\
        (get pre_gate_hidden i j < 0 -> get post_gate_hidden i j = 0) /\
        (get pre_gate_hidden i j = 0 -> get post_gate_hidden i j = 1 / 2) /\
        (0 < get pre_gate_hidden i j -> get post_gate_hidden i j = 1)) /\
    entries (fun g => g = 0 \/ g = 1 / 2 \/ g = 1) post_gate_hidden /\
    (forall N M i j, GatedSAE_shaped self h N M ->
        (i < nrows X)%nat -> (j < N)%nat ->
        get S_ i j = relu (get pre_mag_hidden i j) * get post_gate_hidden i j /\
        (get pre_gate_hidden i j < 0 -> get S_ i j = 0) /\
        (get pre_gate_hidden i j = 0 -> get S_ i j = relu (get pre_mag_hidden i j) / 2) /\
        (0 < get pre_gate_hidden i j -> get S_ i j = relu (get pre_mag_hidden i j))).
Proof.
  intros H. pose proof H as Hfwd.
  unfold GatedSAE.forward in H. cbn [snd] in H.
  bind_inv H c Ec. bind_inv H pre Epre. bind_inv H Spg Ecode.
  destruct Spg as [S1 pg']. bind_inv H t Et. bind_inv H X' EX.
  injection H as <- <- <-.
  unfold GatedSAE.code in Ecode.
  bind_inv Ecode sc Esc. bind_inv Ecode pm Epm. bind_inv Ecode pg0 Epg.
  bind_inv Ecode S0 ES. injection Ecode as <- <-.
  exists c, pre, sc, pm.
  split; [exact Ec|]. split; [exact Epre|]. split; [exact Esc|].
  split; [exact Epm|]. split; [exact Epg|]. cbv zeta.
  split; [exact ES|].
  assert (Hwg : wf pg0) by (eapply bop_wf; eauto).
  assert (Hgate : forall i j, (i < nrows pg0)%nat -> (j < ncols pg0)%nat ->
            get (GatedSAE.gate pg0) i j = (sign (get pg0 i j) + 1) / 2).
  { intros i j Hi Hj. unfold GatedSAE.gate. apply get_tmap; [exact Hi|].
    rewrite wf_nth; auto. }
  split; [|split].
  - intros i j Hi Hj. rewrite (Hgate i j Hi Hj).
    split; [reflexivity | apply gate_cases].
  - apply tmap_Forall. intros x.
    destruct (Rtotal_order x 0) as [Hx|[Hx|Hx]];
      destruct (gate_cases x) as [Hn [Hz Hp]]; auto.
  - intros N M i j Hs Hi Hj.
    destruct (GatedSAE_forward_shapes self h X N M S0 X' pg0 Hs Hfwd)
      as [_ [_ [_ [Hgr Hgc]]]].
    destruct Hs as [Hbd [HWr [HWc [Hrm [Hbm [Hbg [HDr HDc]]]]]]].
    apply bop_vec_shape in Ec. destruct Ec as [Ecr _].
    apply matmul_shape in Epre. destruct Epre as [Epc [Epr _]].
    pose proof (bop_vec_shape _ _ _ _ Esc) as [Esr [Escc _]].
    rewrite length_map, Epc, HWc, Hrm in Escc. apply bdim_same_inv in Escc.
    pose proof (bop_vec_shape _ _ _ _ Epm) as [Emr [Emc Emw]].
    rewrite Escc, Hbm in Emc. apply bdim_same_inv in Emc.
    assert (HS : get S0 i j = get (tmap relu pm) i j * get (GatedSAE.gate pg0) i j).
    { apply (bop_same_shape_get Rmult (tmap relu pm) (GatedSAE.gate pg0) S0 i j); auto.
      - now apply tmap_wf.
      - unfold GatedSAE.gate. now apply tmap_wf.
      - change (ncols pm = ncols pg0). congruence.
      - unfold GatedSAE.gate. rewrite !tmap_nrows. congruence.
      - rewrite tmap_nrows. lia.
      - change (j < ncols pm)%nat. lia. }
    rewrite get_tmap in HS by (try rewrite wf_nth; auto; lia).
    split; [exact HS|].
    rewrite HS, (Hgate i j) by lia.
    destruct (gate_cases (get pg0 i j)) as [Hn [Hz Hp]].
    split; [|split]; intros Hsgn;
      [rewrite (Hn Hsgn) | rewrite (Hz Hsgn) | rewrite (Hp Hsgn)]; lra.
Qed.

Lemma GatedSAE_post_gate_values_witness :
  exists S_ X_ pre_gate_hidden,
    snd (GatedSAE.forward (gated_one false) heap_two X_three)
      = Some (S_, X_, pre_gate_hidden) /\
    pre_gate_hidden = mkT 1 [[(3 - 0) * 1 + 0 + 0]] /\
    get (GatedSAE.gate pre_gate_hidden) 0 0 = 1 /\
    exists pre_mag_hidden,
      bop Rmult (tmap relu pre_mag_hidden) (GatedSAE.gate pre_gate_hidden) = Some S_ /\
      get S_ 0 0 = relu (get pre_mag_hidden 0 0).
Proof.
  do 3 eexists. split; [reflexivity|]. split; [reflexivity|].
  assert (Hs : GatedSAE_shaped (gated_one false) heap_two 1 1) by (repeat split).
  match goal with
  | |- get (GatedSAE.gate ?pg) _ _ = _ /\ (exists q, _ = Some ?S /\ _) =>
      destruct (GatedSAE_post_gate_values (gated_one false) heap_two X_three S _ pg eq_refl)
        as [c [pre [sc [mag [_ [_ [_ [_ [_ [HS [Hcases [_ Hent]]]]]]]]]]]]
  end.
  assert (Hpos : 0 < (3 - 0) * 1 + 0 + 0) by lra.
  split.
  - apply (Hcases 0%nat 0%nat); [unfold nrows; simpl; lia | simpl; lia | exact Hpos].
  - exists mag. split; [exact HS|].
    apply (Hent 1%nat 1%nat 0%nat 0%nat Hs); [unfold nrows; simpl; lia | lia | exact Hpos].
Defined.

(** ** [SparseCoding.infer] *)



Lemma tmap_exp_constant c n b :
  tmap exp (mkT n (repeat (repeat c n) b)) = mkT n (repeat (repeat (exp c) n) b).
Proof.
  unfold tmap. simpl. f_equal. rewrite map_repeat. f_equal. apply map_repeat.
Qed.

Section InferFacts.

Variable opt_state : Type.
Variable adam_init : R -> tensor -> opt_state.
Variable backward : tensor -> tensor -> tensor -> R -> tensor.
Variable adam_step : opt_state -> tensor -> tensor -> opt_state * tensor.


End InferFacts.

(** X17.  [infer] with [num_iterations <= 0] raises (its local [S_] is
    never bound), after having replaced [log_S_] by the constant [-10] of
    shape (X.shape[0], N); this for any optimiser. *)
Theorem infer_without_iterations (opt_state : Type) adam_init backward adam_step
  (self : SparseCoding.t) (h : heap) (X : tensor) (num_iterations : Z) (lr l1_weight : R) :
  (num_iterations <= 0)%Z ->
  let r := SparseCoding_infer opt_state adam_init backward adam_step
             self h X num_iterations lr l1_weight in
  snd r = None /\
  SparseCoding.log_S_ (fst r)
    = mkT (nrows (read h (SparseCoding.D_ self)))
          (repeat (repeat (-10) (nrows (read h (SparseCoding.D_ self)))) (nrows X)) /\
  SparseCoding.D_ (fst r) = SparseCoding.D_ self.
Proof.
  intros Hn. cbv zeta. unfold SparseCoding_infer.
  replace (Z.to_nat num_iterations) with O by lia.
  simpl. auto.
Qed.

Lemma infer_without_iterations_witness :
  (0 <= 0)%Z /\
  snd (SparseCoding_infer R descent_init no_grad descent_step
         (coding_one false) heap_two X_three 0 1 1) = None.
Proof.
  assert (H : (0 <= 0)%Z) by lia. split; [exact H|].
  apply (infer_without_iterations R descent_init no_grad descent_step
           (coding_one false) heap_two X_three 0 1 1 H).
Defined.



(** ** A freshly constructed [SparseCoding] *)

(** X19.  Right after construction [SparseCoding.forward] returns, whatever
    its argument: the code has the shape (S.shape[0], D.shape[0]) and every
    entry is [exp(-10)]; the reconstruction has one row per row of [S].
    (With [learn_D = True] the draw [randn] has the rows of [D], as
    [torch.randn(D.shape)] gives it.) *)
Theorem SparseCoding_fresh_forward (h : heap) (S : tensor) (D : loc) (learn_D : bool)
  (randn : tensor) (X : option tensor) :
  (learn_D = true -> nrows randn = nrows (read h D)) ->
  let self := fst (SparseCoding.init h S D learn_D randn) in
  let h0 := snd (SparseCoding.init h S D learn_D randn) in
  let N := nrows (read h D) in
  exists X_,
    snd (SparseCoding.forward self h0 X)
      = Some (mkT N (repeat (repeat (exp (-10)) N) (nrows S)), X_) /\
    nrows X_ = nrows S /\
    ncols X_ = ncols (if learn_D then randn else read h D).
Proof.
  intros Hrand. cbv zeta. unfold SparseCoding.init.
  destruct learn_D.
  - unfold alloc. cbn [fst snd]. unfold SparseCoding.forward.
    cbn [SparseCoding.learn_D SparseCoding.D_ SparseCoding.log_S_ snd].
    rewrite tmap_exp_constant.
    set (h1 := mkHeap (fun l' => if (l' =? next h)%nat then randn else cells h l')
                      (Datatypes.S (next h))).
    assert (Hread : read h1 (next h) = randn).
    { unfold read, h1. simpl. now rewrite Nat.eqb_refl. }
    destruct (normalize_in_place_shape h1 (next h)) as [Hc Hr].
    rewrite Hread in Hc, Hr.
    match goal with
    | |- context [matmul ?a ?b] => destruct (matmul_returns a b) as [t [Ht [Htc Htr]]]
    end.
    { cbn [ncols]. rewrite Hr. symmetry. now apply Hrand. }
    rewrite Ht, obind_ret. exists t. split; [reflexivity|].
    split; [|congruence].
    rewrite Htr. unfold nrows. cbn [rows]. apply repeat_length.
  - cbn [fst snd]. unfold SparseCoding.forward.
    cbn [SparseCoding.learn_D SparseCoding.D_ SparseCoding.log_S_ snd].
    rewrite tmap_exp_constant.
    match goal with
    | |- context [matmul ?a ?b] => destruct (matmul_returns a b) as [t [Ht [Htc Htr]]]
    end.
    { reflexivity. }
    rewrite Ht, obind_ret. exists t. split; [reflexivity|].
    split; [|exact Htc].
    rewrite Htr. unfold nrows. cbn [rows]. apply repeat_length.
Qed.

Lemma SparseCoding_fresh_forward_witness :
  exists X_,
    snd (SparseCoding.forward
           (fst (SparseCoding.init heap_wide X_column 0%nat true (mkT 2 [[1; 0]])))
           (snd (SparseCoding.init heap_wide X_column 0%nat true (mkT 2 [[1; 0]])))
           None)
      = Some (mkT 1 [[exp (-10)]; [exp (-10)]], X_) /\
    nrows X_ = 2%nat /\ ncols X_ = 2%nat.
Proof.
  apply (SparseCoding_fresh_forward heap_wide X_column 0%nat true (mkT 2 [[1; 0]]) None).
  intros _. reflexivity.
Defined.

(** ** The reconstruction reads the selected atoms only *)

Lemma dot_ext_support u :
  forall v v', length v = length v' ->
    (forall k, nth k u 0 <> 0 -> nth k v 0 = nth k v' 0) ->
    dot u v = dot u v'.
Proof.
  unfold dot, map2.
  induction u as [|a u IH]; intros [|b v] [|b' v'] Hlen H; simpl in *;
    try discriminate; try reflexivity.
  rewrite (IH v v') by (try lia; intros k Hk; apply (H (Datatypes.S k) Hk)).
  destruct (Req_dec_T a 0) as [->|Ha]; [ring|].
  now rewrite (H O Ha).
Qed.

Lemma nth_column (rs : list (list R)) (c k : nat) :
  nth k (map (fun d => nth c d 0) rs) 0 = nth c (nth k rs []) 0.
Proof.
  revert k. induction rs as [|r rs IH]; intros [|k]; simpl; auto; destruct c; auto.
Qed.

Lemma matmul_ext_support (s d d' : tensor) :
  ncols d = ncols d' -> nrows d = nrows d' ->
  (forall j, (exists i, get s i j <> 0) -> nth j (rows d) [] = nth j (rows d') []) ->
  matmul s d = matmul s d'.
Proof.
  intros Hc Hr Hrows. unfold matmul. rewrite <- Hc, <- Hr.
  destruct (ncols s =? nrows d)%nat; [|reflexivity]. do 2 f_equal.
  apply map_ext_in. intros u Hu. apply map_ext. intros c.
  apply dot_ext_support.
  - rewrite !length_map. exact Hr.
  - intros k Hk. rewrite !nth_column. f_equal. apply Hrows.
    destruct (In_nth _ _ [] Hu) as [i [_ Hi]]. exists i. unfold get. now rewrite Hi.
Qed.

(** X20.  The reconstruction of [TopKSAE] (with a supplied dictionary) reads
    only the dictionary atoms whose code entry is non-zero for some example:
    on a dictionary of the same shape that has the same rows at those atoms,
    [forward] returns the same code and the same reconstruction. *)
Theorem TopKSAE_reads_selected_atoms (self : TopKSAE.t) (h h' : heap) X S_ X_ :
  TopKSAE.learn_D self = false ->
  ncols (read h (TopKSAE.D_ self)) = ncols (read h' (TopKSAE.D_ self)) ->
  nrows (read h (TopKSAE.D_ self)) = nrows (read h' (TopKSAE.D_ self)) ->
  snd (TopKSAE.forward self h X) = Some (S_, X_) ->
  (forall j, (exists i, get S_ i j <> 0) ->
     nth j (rows (read h (TopKSAE.D_ self))) []
     = nth j (rows (read h' (TopKSAE.D_ self))) []) ->
  snd (TopKSAE.forward self h' X) = Some (S_, X_).
Proof.
  intros Hl Hc Hr H Hrows. unfold TopKSAE.forward in *. rewrite Hl in *.
  cbn [snd] in *.
  bind_inv H P EP. bind_inv H S0 ES. bind_inv H t Et. bind_inv H X' EX.
  injection H as <- <-.
  rewrite EP, obind_ret, ES, obind_ret.
  rewrite <- (matmul_ext_support S0 _ _ Hc Hr Hrows).
  rewrite Et, obind_ret, EX. reflexivity.
Qed.

(** Evaluates a model on concrete tensors down to the arithmetic of the
    reals, deciding the comparisons met on the way. *)
Ltac compute_reals :=
  repeat (cbv - [Rplus Rminus Rmult Rdiv Ropp Rinv IZR Rlt_dec Req_dec_T exp sqrt Rabs INR];
          match goal with
          | |- context [Rlt_dec ?a ?b] => destruct (Rlt_dec a b); try lra
          end).

Example topksae_two_atoms_forward (second : R) :
  snd (TopKSAE.forward topksae_two_atoms (heap_atoms second) X_three)
  = Some (mkT 2 [[(3 - 0) * 1 + 0 + 0; 0]],
          mkT 1 [[((3 - 0) * 1 + 0 + 0) * 2 + (0 * second + 0) + 0]]).
Proof.
  compute_reals. reflexivity.
Qed.

Lemma TopKSAE_reads_selected_atoms_witness :
  snd (TopKSAE.forward topksae_two_atoms (heap_atoms 5) X_three)
  = snd (TopKSAE.forward topksae_two_atoms (heap_atoms 7) X_three).
Proof.
  rewrite (TopKSAE_reads_selected_atoms topksae_two_atoms (heap_atoms 5) (heap_atoms 7)
             X_three _ _ eq_refl eq_refl eq_refl (topksae_two_atoms_forward 5)).
  - apply topksae_two_atoms_forward.
  - intros [|[|j]] [i Hi].
    + reflexivity.
    + exfalso. apply Hi. destruct i as [|[|i]]; reflexivity.
    + destruct j; reflexivity.
Defined.

(** ** A freshly constructed [GatedSAE] *)

Lemma GatedSAE_init_shaped h D learn_D kaiming_D kaiming_W :
  nrows kaiming_W = ncols (read h D) ->
  ncols kaiming_W = nrows (read h D) ->
  (learn_D = true ->
   nrows kaiming_D = nrows (read h D) /\ ncols kaiming_D = ncols (read h D)) ->
  GatedSAE_shaped (fst (GatedSAE.init h D learn_D kaiming_D kaiming_W))
                  (snd (GatedSAE.init h D learn_D kaiming_D kaiming_W))
                  (nrows (read h D)) (ncols (read h D)).
Proof.
  intros HWr HWc HD. unfold GatedSAE.init, GatedSAE_shaped.
  destruct learn_D.
  - destruct (HD eq_refl) as [HDr HDc]. unfold alloc.
    cbn [fst snd GatedSAE.b_dec GatedSAE.W_gate GatedSAE.r_mag GatedSAE.b_mag
         GatedSAE.b_gate GatedSAE.D_].
    rewrite !repeat_length.
    match goal with
    | |- context [normalize_in_place ?h1 ?l] =>
        destruct (normalize_in_place_shape h1 l) as [Hc Hr];
        assert (Hread : read h1 l = kaiming_D)
          by (unfold read; simpl; now rewrite Nat.eqb_refl)
    end.
    rewrite Hread in Hc, Hr. repeat split; auto; congruence.
  - cbn [fst snd GatedSAE.b_dec GatedSAE.W_gate GatedSAE.r_mag GatedSAE.b_mag
         GatedSAE.b_gate GatedSAE.D_].
    rewrite !repeat_length.
    destruct (normalize_in_place_shape h D) as [Hc Hr].
    repeat split; auto.
Qed.

(** X22.  Right after construction a [GatedSAE] is a plain ReLU encoder:
    with its biases and its log-scale still zero, every entry of the code is
    the ReLU of the entry of [pre_gate_hidden] (the draws having the shapes
    the constructor asks for). *)
Theorem GatedSAE_fresh_code_is_relu (h : heap) (D : loc) (learn_D : bool)
  (kaiming_D kaiming_W : tensor) (X S_ X_ pre_gate_hidden : tensor) (i j : nat) :
  nrows kaiming_W = ncols (read h D) ->
  ncols kaiming_W = nrows (read h D) ->
  (learn_D = true ->
   nrows kaiming_D = nrows (read h D) /\ ncols kaiming_D = ncols (read h D)) ->
  let self := fst (GatedSAE.init h D learn_D kaiming_D kaiming_W) in
  let h0 := snd (GatedSAE.init h D learn_D kaiming_D kaiming_W) in
  snd (GatedSAE.forward self h0 X) = Some (S_, X_, pre_gate_hidden) ->
  (i < nrows X)%nat -> (j < nrows (read h D))%nat ->
  get S_ i j = relu (get pre_gate_hidden i j).
Proof.
  intros HWr HWc HD. cbv zeta. intros H Hi Hj.
  pose proof (GatedSAE_init_shaped h D learn_D kaiming_D kaiming_W HWr HWc HD) as Hs.
  destruct (GatedSAE_code_entry _ _ _ _ _ _ _ _ i j Hs H Hi Hj) as [Hval _].
  rewrite Hval.
  assert (Hb : forall n, nth j (repeat 0 n) 0 = 0) by (intros; apply nth_repeat_zero).
  assert (Hparams :
            nth j (GatedSAE.b_gate (fst (GatedSAE.init h D learn_D kaiming_D kaiming_W))) 0 = 0 /\
            nth j (GatedSAE.r_mag (fst (GatedSAE.init h D learn_D kaiming_D kaiming_W))) 0 = 0 /\
            nth j (GatedSAE.b_mag (fst (GatedSAE.init h D learn_D kaiming_D kaiming_W))) 0 = 0).
  { unfold GatedSAE.init. destruct learn_D; unfold alloc;
      cbn [fst GatedSAE.b_gate GatedSAE.r_mag GatedSAE.b_mag]; auto. }
  destruct Hparams as [-> [-> ->]]. rewrite exp_0.
  set (p := get pre_gate_hidden i j).
  replace ((p - 0) * 1 + 0) with p by ring.
  destruct (Rtotal_order p 0) as [Hp|[Hp|Hp]];
    destruct (gate_cases p) as [Hn [Hz Hpos]].
  - rewrite (Hn Hp). ring_simplify. unfold relu. destruct (Rlt_dec 0 p); lra.
  - rewrite (Hz Hp). rewrite Hp. unfold relu. destruct (Rlt_dec 0 0); lra.
  - rewrite (Hpos Hp). ring.
Qed.

Lemma GatedSAE_fresh_code_is_relu_witness :
  exists S_ X_ pre_gate_hidden,
    snd (GatedSAE.forward
           (fst (GatedSAE.init heap_two 0%nat false (mkT 1 [[1]]) (mkT 1 [[1]])))
           (snd (GatedSAE.init heap_two 0%nat false (mkT 1 [[1]]) (mkT 1 [[1]])))
           X_three)
      = Some (S_, X_, pre_gate_hidden) /\
    get S_ 0 0 = relu (get pre_gate_hidden 0 0).
Proof.
  do 3 eexists. split; [reflexivity|].
  eapply (GatedSAE_fresh_code_is_relu heap_two 0%nat false (mkT 1 [[1]]) (mkT 1 [[1]])
            X_three _ _ _ 0 0).
  - reflexivity.
  - reflexivity.
  - intros Habs. discriminate Habs.
  - reflexivity.
  - unfold nrows. simpl. lia.
  - unfold nrows. simpl. lia.
Defined.
